(** * SimpleObfPass: a shallow embedding of the obfuscation pass

    The development follows [src/SimpleObfPass.cpp].  The pass is written
    against the LLVM C++ API; the part of that API the pass calls is modelled
    in [Module LLVM] after the documented behaviour of the library: names
    are unique within a module's symbol table ([setName] and the creation
    of a global or function choose a new name when the given one is taken),
    [ConstantDataArray::get] returns the zero initializer for elements that
    are all zero, the instruction builder folds constant operands, and
    assertions ([cast], [getAsCString]) are compiled out.  The pass itself
    is in [Module SimpleObfPass]: its three command line options are the
    variables of [Section Pass], the values returned by [rand()] are given
    by a sequence, and the pass object, the module and the number of calls
    to [rand()] are threaded through as a [State]. *)

From Stdlib Require Import ZArith List String Ascii Lia.
From stdpp Require Import base tactics option list numbers strings pretty.

Local Open Scope Z_scope.

(** ** The slice of the LLVM API used by the pass *)

Module LLVM.

(** [GlobalValue::LinkageTypes]; [OtherLinkage] stands for the kinds the pass
    never tests for (weak, linkonce, common, ...). *)
Inductive LinkageTypes :=
| ExternalLinkage
| InternalLinkage
| PrivateLinkage
| OtherLinkage.

Inductive ElementType :=
| Int8Ty
| OtherElementTy.

(** Initializers.  A [ConstantDataArray] holds its elements as unsigned
    values; [ConstantAggregateZero n] is the zero initializer of an [n]
    element array; [GlobalAddress g] is the address of the global at
    position [g] (as in [static const char *p = "text"]). *)
Inductive Constant :=
| ConstantDataArray (ety : ElementType) (elts : list Z)
| ConstantAggregateZero (n : nat)
| GlobalAddress (g : nat)
| OtherConstant.

(** Linkage tests are [hasExternalLinkage], [hasPrivateLinkage]. *)
Definition hasExternalLinkage (l : LinkageTypes) : bool :=
  match l with ExternalLinkage => true | _ => false end.

Definition hasPrivateLinkage (l : LinkageTypes) : bool :=
  match l with PrivateLinkage => true | _ => false end.

Record GlobalVariable := {
  gname : string;
  glinkage : LinkageTypes;
  isConstant : bool;
  initializer : option Constant
}.

(** Operands.  Instructions are referred to by their result number, globals
    by their position in the module's list of globals. *)
Inductive Value :=
| ConstantInt (bits : nat) (v : Z)
| Argument (n : nat)
| InstValue (id : nat)
| GlobalRef (g : nat).

(** Branch targets are positions in the owning function's list of blocks
    (block pointers in the source); block names are not modelled. *)
Inductive Instruction :=
| Add (id : nat) (a b : Value)
| Mul (id : nat) (a b : Value)
| ICmpEQ (id : nat) (a b : Value)
| Call (callee : string) (args : list Value)
| OtherInst (operands : list Value)
| Br (target : nat)
| CondBr (cond : Value) (ifTrue ifFalse : nat)
| Ret (v : Value).

Definition BasicBlock := list Instruction.

(** A function without blocks is a declaration; the first block is the
    entry block.  Signatures are not modelled. *)
Record Function := {
  fname : string;
  flinkage : LinkageTypes;
  fblocks : list BasicBlock
}.

(** The module owns its globals and functions in order, and one symbol table
    over both; [LastUnique] is the symbol table's counter for made-up
    names. *)
Record Module := {
  globals : list GlobalVariable;
  functions : list Function;
  LastUnique : nat
}.

Definition isDeclaration (F : Function) : bool :=
  match fblocks F with [] => true | _ => false end.

(** [StringRef::endswith] and [StringRef::startswith]. *)
Definition endswith (s suffix : string) : bool :=
  (String.length suffix <=? String.length s)%nat
  && String.eqb
       (substring (String.length s - String.length suffix)
                  (String.length suffix) s)
       suffix.

Definition startswith (s pre : string) : bool := String.prefix pre s.

(** The names held by the module's symbol table. *)
Definition symbols (M : Module) : list string :=
  (gname <$> globals M) ++ (fname <$> functions M).

(** The names [makeUniqueName] tries for a global value: the base name, a
    dot, the counter in decimal. *)
Definition candidate (base : string) (n : nat) : string :=
  (base +:+ "." +:+ pretty n)%string.

(** [ValueSymbolTable::makeUniqueName] for a global value: append a dot and
    the next value of the counter until the name is free.  The library loops
    without bound; [fuel] is the number of names that may still be found
    taken, and the last candidate is returned unchecked
    ([makeUniqueName_fresh] shows it is free as well).  The counter is an
    unsigned 32-bit field in the library and a [nat] here. *)
Fixpoint makeUniqueName (fuel : nat) (vmap : list string) (base : string)
    (last : nat) : string * nat :=
  let n := S last in
  let UniqueName := candidate base n in
  match fuel with
  | O => (UniqueName, n)
  | S fuel' =>
      if bool_decide (UniqueName ∈ vmap)
      then makeUniqueName fuel' vmap base n
      else (UniqueName, n)
  end.

(** [ValueSymbolTable::createValueName]: the name itself when it is free,
    a made-up one otherwise ("choose a new unique name if the provided name
    is taken", in the words of [Value::setName]). *)
Definition createValueName (vmap : list string) (last : nat) (Name : string)
    : string * nat :=
  if bool_decide (Name ∈ vmap) then makeUniqueName (length vmap) vmap Name last
  else (Name, last).

Definition withName (GV : GlobalVariable) (n : string) : GlobalVariable :=
  {| gname := n; glinkage := glinkage GV; isConstant := isConstant GV;
     initializer := initializer GV |}.

Definition withInitializer (GV : GlobalVariable) (c : Constant)
    : GlobalVariable :=
  {| gname := gname GV; glinkage := glinkage GV; isConstant := isConstant GV;
     initializer := Some c |}.

(** [GV->setInitializer(c)] on the global at position [i]. *)
Definition setInitializer (M : Module) (i : nat) (c : Constant) : Module :=
  match globals M !! i with
  | Some GV =>
      {| globals := <[i := withInitializer GV c]> (globals M);
         functions := functions M; LastUnique := LastUnique M |}
  | None => M
  end.

(** [GV->setName(Name)] on the global at position [i], for a non-empty
    [Name] other than the current one (the only use the pass makes of it):
    the old name leaves the symbol table, then the new one is entered. *)
Definition setName (M : Module) (i : nat) (Name : string) : Module :=
  match globals M !! i with
  | Some GV =>
      let vmap := (gname <$> delete i (globals M)) ++ (fname <$> functions M) in
      let '(n, last) := createValueName vmap (LastUnique M) Name in
      {| globals := <[i := withName GV n]> (globals M);
         functions := functions M; LastUnique := last |}
  | None => M
  end.

(** [new GlobalVariable(M, Ty, constant, Linkage, Init, Name)]: appended to
    the module's globals, its name entered in the symbol table. *)
Definition newGlobalVariable (M : Module) (constant : bool)
    (Linkage : LinkageTypes) (Init : Constant) (Name : string) : Module :=
  let '(n, last) := createValueName (symbols M) (LastUnique M) Name in
  {| globals := globals M ++
       [{| gname := n; glinkage := Linkage; isConstant := constant;
           initializer := Some Init |}];
     functions := functions M; LastUnique := last |}.

(** [Function::Create(FT, Linkage, Name, M)] followed by the creation of its
    blocks: appended to the module's functions. *)
Definition createFunction (M : Module) (Linkage : LinkageTypes)
    (Name : string) (body : list BasicBlock) : Module :=
  let '(n, last) := createValueName (symbols M) (LastUnique M) Name in
  {| globals := globals M;
     functions := functions M ++
       [{| fname := n; flinkage := Linkage; fblocks := body |}];
     LastUnique := last |}.

(** [ConstantDataArray::get(Ctx, elts)] for bytes: documented to return a
    [ConstantAggregateZero] when every element is zero. *)
Definition allZeros (elts : list Z) : bool := forallb (Z.eqb 0) elts.

Definition ConstantDataArray_get (elts : list Z) : Constant :=
  if allZeros elts then ConstantAggregateZero (length elts)
  else ConstantDataArray Int8Ty elts.

(** [isString()]: an array of 8-bit integers. [isCString()]: moreover the
    last element is zero and no other is. *)
Definition isString (c : Constant) : bool :=
  match c with ConstantDataArray Int8Ty _ => true | _ => false end.

Definition isCString (elts : list Z) : bool :=
  match reverse elts with
  | last :: init => (last =? 0) && forallb (fun b => negb (b =? 0)) init
  | [] => false
  end.

(** [getAsCString()] drops the last element.  It asserts [isCString]; as in
    a build without assertions, nothing is checked here. *)
Definition getAsCString (elts : list Z) : list Z := removelast elts.

(** The bytes an initializer stands for, when it is an array of bytes. *)
Definition payload (c : Constant) : option (list Z) :=
  match c with
  | ConstantDataArray Int8Ty elts => Some elts
  | ConstantAggregateZero n => Some (replicate n 0)
  | _ => None
  end.

(** [IRBuilder::CreateICmpEQ]: with the default folder two constant operands
    give a constant and no instruction. *)
Definition CreateICmpEQ (id : nat) (a b : Value) : list Instruction * Value :=
  match a, b with
  | ConstantInt _ x, ConstantInt _ y =>
      ([], ConstantInt 1 (if x =? y then 1 else 0))
  | _, _ => ([ICmpEQ id a b], InstValue id)
  end.

(** *** Running a function

    A small-step reading of the instructions above, enough to observe what
    a function returns and which calls it makes.  Integers are 32 bits
    wide; a call is recorded with its argument values and yields nothing;
    an instruction of unknown meaning, or a block that ends without a
    terminator, is [Stuck]. *)

Definition Event := (string * list Z)%type.

Inductive Outcome :=
| Returned (v : Z) (trace : list Event)
| Stuck
| OutOfFuel.

Definition Env := list (nat * Z).

Fixpoint env_get (env : Env) (id : nat) : Z :=
  match env with
  | [] => 0
  | (k, v) :: env' => if Nat.eqb k id then v else env_get env' id
  end.

Definition eval (args : list Z) (env : Env) (v : Value) : Z :=
  match v with
  | ConstantInt _ z => z
  | Argument n => nth n args 0
  | InstValue id => env_get env id
  | GlobalRef g => Z.of_nat g
  end.

Definition wrap32 (z : Z) : Z := z mod 2 ^ 32.

Fixpoint exec (fuel : nat) (blocks : list BasicBlock) (args : list Z)
    (env : Env) (trace : list Event) (code : list Instruction) : Outcome :=
  match fuel with
  | O => OutOfFuel
  | S fuel' =>
      match code with
      | [] => Stuck
      | Add id a b :: rest =>
          exec fuel' blocks args
               ((id, wrap32 (eval args env a + eval args env b)) :: env)
               trace rest
      | Mul id a b :: rest =>
          exec fuel' blocks args
               ((id, wrap32 (eval args env a * eval args env b)) :: env)
               trace rest
      | ICmpEQ id a b :: rest =>
          exec fuel' blocks args
               ((id, if eval args env a =? eval args env b then 1 else 0)
                  :: env)
               trace rest
      | Call callee vs :: rest =>
          exec fuel' blocks args env
               (trace ++ [(callee, eval args env <$> vs)]) rest
      | OtherInst _ :: _ => Stuck
      | Br target :: _ =>
          match blocks !! target with
          | Some bb => exec fuel' blocks args env trace bb
          | None => Stuck
          end
      | CondBr cond ifTrue ifFalse :: _ =>
          match blocks !! (if eval args env cond =? 0 then ifFalse
                           else ifTrue) with
          | Some bb => exec fuel' blocks args env trace bb
          | None => Stuck
          end
      | Ret v :: _ => Returned (eval args env v) trace
      end
  end.

(** Calling [F] on [args]: start at the entry block. *)
Definition call (fuel : nat) (F : Function) (args : list Z) : Outcome :=
  match fblocks F with
  | EntryBB :: _ => exec fuel (fblocks F) args [] [] EntryBB
  | [] => Stuck
  end.


Definition operands (i : Instruction) : list Value :=
  match i with
  | Add _ a b | Mul _ a b | ICmpEQ _ a b => [a; b]
  | Call _ vs | OtherInst vs => vs
  | Br _ => []
  | CondBr c _ _ => [c]
  | Ret v => [v]
  end.





End LLVM.

(** ** The pass *)

Module SimpleObfPass.
Import LLVM.

(** The pass object's counters ([unsigned], so they wrap at [2^32]), the
    module it works on, and the number of calls made to [rand()] so far. *)
Record State := {
  module : Module;
  strings_obf_count : Z;
  fake_funcs_inserted : Z;
  cycles_completed : Z;
  rand_calls : nat
}.

Definition incr (c : Z) : Z := (c + 1) mod 2 ^ 32.

Definition withModule (st : State) (M : Module) : State :=
  {| module := M; strings_obf_count := strings_obf_count st;
     fake_funcs_inserted := fake_funcs_inserted st;
     cycles_completed := cycles_completed st; rand_calls := rand_calls st |}.

Section Pass.

(** The command line options, and the values successive calls of [rand()]
    return. *)
Variables XorKey BogusCount Cycles : Z.
Variable rand : nat -> Z.

(** Line 135: [originalStr[i] ^ (XorKey & 0xFF)] stored into a [uint8_t].
    Characters are taken as their unsigned value; [xor_byte_signed_char]
    shows that reading them as signed [char] gives the same byte. *)
Definition xor_byte (c : Z) : Z := Z.lxor c (Z.land XorKey 255) mod 2 ^ 8.

(** Lines 133-136: the loop over [originalStr]. *)
Definition xor_bytes (s : list Z) : list Z := xor_byte <$> s.

(** Lines 129-137: the bytes of the new initializer, from the old ones. *)
Definition encrypted (elts : list Z) : list Z :=
  xor_bytes (getAsCString elts) ++ [0].

(** The filter of lines 104-113. *)
Definition isStringGlobal (GV : GlobalVariable) : bool :=
  match initializer GV with
  | None => false
  | Some c =>
      isConstant GV && negb (hasExternalLinkage (glinkage GV)) && isString c
  end.

(** A loop that collects the positions of the elements passing a test, in
    order (the vectors of pointers of lines 100 and 204). *)
Fixpoint collect {A} (p : A -> bool) (i : nat) (l : list A) : list nat :=
  match l with
  | [] => []
  | x :: l' => if p x then i :: collect p (S i) l' else collect p (S i) l'
  end.

Definition stringGlobals (M : Module) : list nat :=
  collect isStringGlobal 0%nat (globals M).

(** Lines 128-154.  The copy is created while the global still has its old
    name and initializer.  [cast<ConstantDataArray>] is not checked; the pass
    calls this only on what passed the filter, so the other branches are not
    taken. *)
Definition encryptString (M : Module) (GV : nat) : Module :=
  match globals M !! GV with
  | Some g =>
      match initializer g with
      | Some (ConstantDataArray _ elts) =>
          let encryptedData := ConstantDataArray_get (encrypted elts) in
          let M1 := newGlobalVariable M true PrivateLinkage encryptedData
                      (gname g +:+ "_enc") in
          let M2 := setInitializer M1 GV encryptedData in
          setName M2 GV (gname g +:+ "_obf")
      | _ => M
      end
  | None => M
  end.

(** Lines 99-123. *)
Definition obfuscateStrings (st : State) : bool * State :=
  let found := stringGlobals (module st) in
  let st' :=
    foldl (fun s GV =>
             {| module := encryptString (module s) GV;
                strings_obf_count := incr (strings_obf_count s);
                fake_funcs_inserted := fake_funcs_inserted s;
                cycles_completed := cycles_completed s;
                rand_calls := rand_calls s |})
          st found in
  (negb (bool_decide (found = [])), st').

(** Lines 181-188: three rounds of add and multiply on the argument, built
    at the end of the block, then the return. *)
Definition bogus_round (i : Z) (acc : list Instruction * Value) (j : Z)
    : list Instruction * Value :=
  let '(code, Result) := acc in
  let id := S (length code) in
  (code ++ [Add id Result (ConstantInt 32 ((j + i) mod 2 ^ 32));
            Mul (S id) (InstValue id) (ConstantInt 32 2)],
   InstValue (S id)).

Definition bogus_entry (i : Z) : BasicBlock :=
  let '(code, Result) := foldl (bogus_round i) ([], Argument 0) [0; 1; 2] in
  code ++ [Ret Result].

(** Line 165. *)
Definition bogus_name (i : Z) (r : Z) : string :=
  ("bogus_func_" +:+ pretty i +:+ "_" +:+ pretty (Z.rem r 10000))%string.

(** Lines 163-194: [n] more turns of the loop, the next index being [i]. *)
Fixpoint insertBogusFunctions_loop (n : nat) (i : Z) (st : State) : State :=
  match n with
  | O => st
  | S n' =>
      let funcName := bogus_name i (rand (rand_calls st)) in
      let M' := createFunction (module st) PrivateLinkage funcName
                  [bogus_entry i] in
      insertBogusFunctions_loop n' (i + 1)
        {| module := M';
           strings_obf_count := strings_obf_count st;
           fake_funcs_inserted := incr (fake_funcs_inserted st);
           cycles_completed := cycles_completed st;
           rand_calls := S (rand_calls st) |}
  end.

(** Lines 159-197. *)
Definition insertBogusFunctions (st : State) : bool * State :=
  (0 <? BogusCount, insertBogusFunctions_loop (Z.to_nat BogusCount) 0 st).

(** The test of lines 208-209. *)
Definition isRenamable (GV : GlobalVariable) : bool :=
  hasPrivateLinkage (glinkage GV)
  && negb (endswith (gname GV) "_obf")
  && negb (endswith (gname GV) "_enc").

Definition toRename (M : Module) : list nat :=
  collect isRenamable 0%nat (globals M).

(** Lines 215-220, one turn. *)
Definition renameGlobal (M : Module) (GV : nat) : Module :=
  match globals M !! GV with
  | Some g => setName M GV (gname g +:+ "_obf")
  | None => M
  end.

(** Lines 202-223. *)
Definition renamePrivateGlobals (st : State) : bool * State :=
  let found := toRename (module st) in
  (negb (bool_decide (found = [])),
   withModule st (foldl renameGlobal (module st) found)).

(** Lines 241-266 on a function whose entry block is [EntryBB]: the folded
    comparison and the conditional branch go in front of the entry block,
    the two new blocks at the end of the function. *)
Definition addDeadConditional (F : Function) (EntryBB : BasicBlock)
    (others : list BasicBlock) : Function :=
  let '(cmp, Cond) :=
    CreateICmpEQ 0 (ConstantInt 32 0) (ConstantInt 32 1) in
  let DeadBB := length (EntryBB :: others) in
  let ContBB := S DeadBB in
  {| fname := fname F; flinkage := flinkage F;
     fblocks := (cmp ++ CondBr Cond DeadBB ContBB :: EntryBB) :: others
                ++ [[Br ContBB]; [Br 0%nat]] |}.

(** Lines 233-273: the loop over the functions; [None] when it ends without
    having modified one. *)
Fixpoint insertDeadConditionals_loop (Fs : list Function)
    : option (list Function) :=
  match Fs with
  | [] => None
  | F :: rest =>
      if isDeclaration F || startswith (fname F) "bogus_func_"
      then (fun r => F :: r) <$> insertDeadConditionals_loop rest
      else
        match fblocks F with
        | EntryBB :: others =>
            match EntryBB with
            | [] => (fun r => F :: r) <$> insertDeadConditionals_loop rest
            | _ => Some (addDeadConditional F EntryBB others :: rest)
            end
        | [] => (fun r => F :: r) <$> insertDeadConditionals_loop rest
        end
  end.

(** Lines 228-276. *)
Definition insertDeadConditionals (st : State) : bool * State :=
  match insertDeadConditionals_loop (functions (module st)) with
  | Some Fs =>
      (true,
       withModule st
         {| globals := globals (module st); functions := Fs;
            LastUnique := LastUnique (module st) |})
  | None => (false, st)
  end.

(** Lines 75-80: one cycle. *)
Definition cycle (st : State) : bool * State :=
  let '(c1, st1) := obfuscateStrings st in
  let '(c2, st2) := insertBogusFunctions st1 in
  let '(c3, st3) := renamePrivateGlobals st2 in
  let '(c4, st4) := insertDeadConditionals st3 in
  (c1 || c2 || c3 || c4,
   {| module := module st4;
      strings_obf_count := strings_obf_count st4;
      fake_funcs_inserted := fake_funcs_inserted st4;
      cycles_completed := incr (cycles_completed st4);
      rand_calls := rand_calls st4 |}).

(** Lines 71-81: [n] more cycles. *)
Fixpoint run_cycles (n : nat) (changed : bool) (st : State) : bool * State :=
  match n with
  | O => (changed, st)
  | S n' =>
      let '(c, st') := cycle st in
      run_cycles n' (changed || c) st'
  end.

(** Lines 65-92; the telemetry written at the end reads the counters and
    leaves the module alone. *)
Definition runOnModule (st : State) : bool * State :=
  run_cycles (Z.to_nat Cycles) false st.

(** The module and counters after [n] cycles. *)
Definition after_cycles (n : nat) (st : State) : State :=
  snd (run_cycles n false st).

End Pass.

End SimpleObfPass.

(** ** Telemetry

    [outputTelemetry] (lines 281-305) writes the three counters and the two
    options to [warp_pass_telemetry.json], and the three counters to the
    diagnostics stream.  Opening the file is the one thing that can fail;
    [opened] says whether the file could be opened.  The result is the text
    of the file, if it is written, and the text sent to the diagnostics
    stream.  Numbers are printed in decimal, as [raw_ostream] prints an
    [unsigned] or an [int]. *)

Module Telemetry.
Import LLVM SimpleObfPass.

Section Output.
Variables XorKey BogusCount : Z.

Definition quote : string := String "034"%char "".
Definition newline : string := String "010"%char "".

(** One line of the file: two spaces, the key in quotes, a colon, a space,
    the number, and what ends the line. *)
Definition field (key : string) (v : Z) (ending : string) : string :=
  ("  " +:+ quote +:+ key +:+ quote +:+ ": " +:+ pretty v +:+ ending)%string.

Definition telemetry_file (st : State) : string :=
  ("{" +:+ newline
   +:+ field "strings_obf_count" (strings_obf_count st) ("," +:+ newline)
   +:+ field "fake_funcs_inserted" (fake_funcs_inserted st) ("," +:+ newline)
   +:+ field "cycles_completed" (cycles_completed st) ("," +:+ newline)
   +:+ field "xor_key" XorKey ("," +:+ newline)
   +:+ field "bogus_count_requested" BogusCount newline
   +:+ "}" +:+ newline)%string.

Definition telemetry_line (st : State) : string :=
  ("[warp_aai] TELEMETRY: {"
   +:+ quote +:+ "strings_obf_count" +:+ quote +:+ ":"
   +:+ pretty (strings_obf_count st)
   +:+ "," +:+ quote +:+ "fake_funcs_inserted" +:+ quote +:+ ":"
   +:+ pretty (fake_funcs_inserted st)
   +:+ "," +:+ quote +:+ "cycles_completed" +:+ quote +:+ ":"
   +:+ pretty (cycles_completed st)
   +:+ "}" +:+ newline)%string.

Definition outputTelemetry (opened : bool) (st : State)
    : option string * string :=
  if opened
  then (Some (telemetry_file st),
        ("[warp_aai] Telemetry written to warp_pass_telemetry.json"
         +:+ newline +:+ telemetry_line st)%string)
  else (None,
        ("[warp_aai] Warning: Could not write telemetry file"
         +:+ newline +:+ telemetry_line st)%string).

End Output.

End Telemetry.

(** ** Vocabulary of the statements *)

Import LLVM SimpleObfPass.

(** An unsigned 8-bit value, and a [char] read as signed. *)
Definition is_byte (b : Z) : Prop := 0 <= b < 256.

Definition sext8 (b : Z) : Z := if b <? 128 then b else b - 256.

(** An unsigned 32-bit value, and such a counter incremented [n] times. *)
Definition in_range (c : Z) : Prop := 0 <= c < 2 ^ 32.

Definition bump (n : nat) (c : Z) : Z := (c + Z.of_nat n) mod 2 ^ 32.

(** The invariant of the module's symbol table: no name is held twice. *)
Definition wf (M : Module) : Prop := NoDup (symbols M).

(** What a name entered as [Name] ends up as: [Name] itself, or [Name]
    followed by a dot and a number. *)
Definition entered_as (Name n : string) : Prop :=
  n = Name ∨ ∃ k : nat, n = candidate Name k.

(** The global at position [i] has a data array as initializer. *)
Definition encryptable (M : Module) (i : nat) : Prop :=
  ∃ g ety elts, globals M !! i = Some g ∧
                initializer g = Some (ConstantDataArray ety elts).


(** What the renamer does to a global when no name it asks for is taken. *)
Definition rename_one (g : GlobalVariable) : GlobalVariable :=
  if isRenamable g then withName g (gname g +:+ "_obf") else g.

(** No name the renamer will ask for is held by the symbol table. *)
Definition no_collision (M : Module) : Prop :=
  ∀ g, g ∈ globals M -> isRenamable g = true ->
       (gname g +:+ "_obf")%string ∉ symbols M.

(** The reading of "a new random suffix is drawn and retried until unique":
    the name of every function added by one call of the synthesizer is the
    name generated from its ordinal and a number drawn during that call. *)
Definition names_are_drawn (BogusCount : Z) (rand : nat -> Z) (st : State)
    : Prop :=
  let st' := (insertBogusFunctions BogusCount rand st).2 in
  ∀ k F,
    functions (module st') !! (length (functions (module st)) + k)%nat = Some F ->
    ∃ c, (rand_calls st <= c < rand_calls st')%nat ∧
         fname F = bogus_name (Z.of_nat k) (rand c).

(** The global at position [i] is selected by the encryptor in every cycle:
    encrypted again, given another suffix, counted again. *)
Definition reencrypted_each_cycle (XorKey BogusCount : Z) (rand : nat -> Z)
    (st : State) (i : nat) : Prop :=
  ∀ n,
    let before := after_cycles XorKey BogusCount rand n st in
    let after := after_cycles XorKey BogusCount rand (S n) st in
    ∃ g elts g',
      globals (module before) !! i = Some g ∧
      isStringGlobal g = true ∧
      i ∈ stringGlobals (module before) ∧
      initializer g = Some (ConstantDataArray Int8Ty elts) ∧
      globals (module after) !! i = Some g' ∧
      initializer g' = Some (ConstantDataArray Int8Ty (encrypted XorKey elts)) ∧
      (∃ tail, gname g' = (gname g +:+ "_obf" +:+ tail)%string) ∧
      strings_obf_count after =
        (strings_obf_count before
         + Z.of_nat (length (stringGlobals (module before)))) mod 2 ^ 32.

(** The function test of the dead-branch inserter (lines 234 and 239): a
    definition, not named as a decoy, with a non-empty entry block. *)
Definition deadEligible (F : Function) : bool :=
  negb (isDeclaration F || startswith (fname F) "bogus_func_")
  && match fblocks F with
     | (_ :: _) :: _ => true
     | _ => false
     end.

(** The position of the first function passing that test. *)
Fixpoint first_eligible (Fs : list Function) : option nat :=
  match Fs with
  | [] => None
  | F :: rest => if deadEligible F then Some 0%nat else S <$> first_eligible rest
  end.

(** [g'] is [g] up to its initializer and a tail appended to its name. *)
Definition same_object (g g' : GlobalVariable) : Prop :=
  glinkage g' = glinkage g ∧ isConstant g' = isConstant g ∧
  ∃ tail, gname g' = (gname g +:+ tail)%string.

(** ** The demonstration program

    [calculate_fibonacci] of [src/example.c] (lines 37-42), on 32-bit [int]:
    an addition that leaves the range of [int] has no defined result. *)

Module Example.

Definition INT_MAX : Z := 2 ^ 31 - 1.
Definition INT_MIN : Z := - 2 ^ 31.

Inductive IntResult :=
| Int (v : Z)
| SignedOverflow
| NoFuel.

(** [fuel] bounds the depth of the recursion. *)
Fixpoint calculate_fibonacci (fuel : nat) (n : Z) : IntResult :=
  match fuel with
  | O => NoFuel
  | S fuel' =>
      if n <=? 1 then Int n
      else
        match calculate_fibonacci fuel' (n - 1) with
        | Int a =>
            match calculate_fibonacci fuel' (n - 2) with
            | Int b =>
                if (INT_MIN <=? a + b) && (a + b <=? INT_MAX) then Int (a + b)
                else SignedOverflow
            | r => r
            end
        | r => r
        end
  end.

(** The Fibonacci numbers 0, 1, 1, 2, 3, 5, ... by iteration on pairs. *)
Definition fib_step (p : Z * Z) : Z * Z := (p.2, p.1 + p.2).

Definition fib (n : nat) : Z := (Nat.iter n fib_step (0, 1)).1.

End Example.

(** The characters of a printed number, and the texts made of them. *)
Definition numeral_char (c : ascii) : bool :=
  match c with
  | "0" | "1" | "2" | "3" | "4" | "5" | "6" | "7" | "8" | "9" | "-" => true
  | _ => false
  end%char.

Fixpoint numeral (s : string) : bool :=
  match s with
  | EmptyString => true
  | String c s' => numeral_char c && numeral s'
  end.

(** ** Sample modules *)

Module Samples.

(** A pass object as constructed: all counters zero. *)
Definition initial (M : Module) : State :=
  {| module := M; strings_obf_count := 0; fake_funcs_inserted := 0;
     cycles_completed := 0; rand_calls := 0 |}.

(** [@.str = private constant [4 x i8] c"ABC\00"] *)
Definition str_ABC : GlobalVariable :=
  {| gname := ".str"; glinkage := PrivateLinkage; isConstant := true;
     initializer := Some (ConstantDataArray Int8Ty [65; 66; 67; 0]) |}.

(** [@version = constant [3 x i8] c"v1\00"], visible to other modules. *)
Definition version : GlobalVariable :=
  {| gname := "version"; glinkage := ExternalLinkage; isConstant := true;
     initializer := Some (ConstantDataArray Int8Ty [118; 49; 0]) |}.

(** [@.str = private constant [2 x i8] c"\AA\00"] *)
Definition str_AA : GlobalVariable :=
  {| gname := ".str"; glinkage := PrivateLinkage; isConstant := true;
     initializer := Some (ConstantDataArray Int8Ty [170; 0]) |}.

(** [main] prints the first global and returns 7. *)
Definition main_fn : Function :=
  {| fname := "main"; flinkage := ExternalLinkage;
     fblocks := [[Call "puts" [GlobalRef 0]; Ret (ConstantInt 32 7)]] |}.

Definition M_ABC : Module :=
  {| globals := [str_ABC]; functions := [main_fn]; LastUnique := 0 |}.

Definition M_ext : Module :=
  {| globals := [str_ABC; version]; functions := [main_fn]; LastUnique := 0 |}.

Definition M_AA : Module :=
  {| globals := [str_AA]; functions := [main_fn]; LastUnique := 0 |}.

(** A private [@counter] next to an external [@counter_obf]. *)
Definition M_collide : Module :=
  {| globals :=
       [{| gname := "counter"; glinkage := PrivateLinkage; isConstant := false;
           initializer := Some OtherConstant |};
        {| gname := "counter_obf"; glinkage := ExternalLinkage;
           isConstant := false; initializer := Some OtherConstant |}];
     functions := []; LastUnique := 0 |}.

(** Successive values of [rand()]: 42, 43, 44, ... *)
Definition rand_ex (c : nat) : Z := 42 + Z.of_nat c.

(** Successive values of [rand()] that agree modulo 10000: 42, 10042, ... *)
Definition rand_same (c : nat) : Z := 42 + 10000 * Z.of_nat c.

(** [helper] returns its argument. *)
Definition helper_fn : Function :=
  {| fname := "helper"; flinkage := InternalLinkage;
     fblocks := [[Ret (Argument 0)]] |}.

(** [@global_counter = internal global i32 0], a C [static int]. *)
Definition global_counter : GlobalVariable :=
  {| gname := "global_counter"; glinkage := InternalLinkage;
     isConstant := false; initializer := Some OtherConstant |}.

Definition M_demo : Module :=
  {| globals := [str_ABC; global_counter]; functions := [main_fn; helper_fn];
     LastUnique := 0 |}.

(** Nothing for any pass to select: a static counter and a declaration. *)
Definition M_idle : Module :=
  {| globals := [global_counter];
     functions := [{| fname := "puts"; flinkage := ExternalLinkage;
                      fblocks := [] |}];
     LastUnique := 0 |}.



(** [@.str = private constant [4 x i8] c"A\00B\00"]: a zero byte inside. *)
Definition str_A0B : GlobalVariable :=
  {| gname := ".str"; glinkage := PrivateLinkage; isConstant := true;
     initializer := Some (ConstantDataArray Int8Ty [65; 0; 66; 0]) |}.

Definition M_A0B : Module :=
  {| globals := [str_A0B]; functions := [main_fn]; LastUnique := 0 |}.

End Samples.

(** ** Tactics for the samples *)

(** Closes a decidable side condition on a sample by evaluation. *)
Ltac by_evaluation := apply (bool_decide_unpack _); vm_compute; exact I.

(** Closes a range condition on sample bytes or counters. *)
Ltac in_bounds :=
  solve [ unfold in_range; simpl; lia
        | repeat first [ apply List.Forall_nil
                       | apply List.Forall_cons; [unfold is_byte; lia|] ] ].

(** * Properties *)

(** ** Bytes *)

Lemma mod_256_land z : z mod 2 ^ 8 = Z.land z 255.
Proof. change 255 with (Z.ones 8). rewrite Z.land_ones by lia. reflexivity. Qed.

Lemma land_255_byte z : is_byte (Z.land z 255).
Proof.
  unfold is_byte. rewrite <- mod_256_land.
  pose proof (Z.mod_pos_bound z (2 ^ 8)). lia.
Qed.

Lemma byte_land_255 b : is_byte b -> Z.land b 255 = b.
Proof.
  intros Hb. rewrite <- mod_256_land. apply Z.mod_small.
  unfold is_byte in Hb. lia.
Qed.

Section Bytes.
Variable XorKey : Z.

Lemma xor_byte_is_byte c : is_byte (xor_byte XorKey c).
Proof. unfold xor_byte. rewrite mod_256_land. apply land_255_byte. Qed.

Lemma xor_byte_involutive c :
  is_byte c -> xor_byte XorKey (xor_byte XorKey c) = c.
Proof.
  intros Hc. unfold xor_byte. rewrite !mod_256_land.
  rewrite <- (byte_land_255 c Hc) at 2.
  apply Z.bits_inj'. intros n Hn.
  rewrite !Z.land_spec, !Z.lxor_spec, !Z.land_spec.
  destruct (Z.testbit 255 n) eqn:E; rewrite ?andb_true_r, ?andb_false_r;
    [|reflexivity].
  rewrite Z.lxor_spec, Z.land_spec, E, andb_true_r.
  rewrite xorb_assoc, xorb_nilpotent, xorb_false_r. reflexivity.
Qed.


(** Whether [char] is signed makes no difference to the stored byte. *)
Lemma xor_byte_signed_char c :
  is_byte c -> Z.lxor (sext8 c) (Z.land XorKey 255) mod 2 ^ 8 = xor_byte XorKey c.
Proof.
  intros Hc. unfold xor_byte, sext8. rewrite !mod_256_land.
  destruct (c <? 128); [reflexivity|].
  apply Z.bits_inj'. intros n Hn.
  rewrite !Z.land_spec, !Z.lxor_spec.
  destruct (Z.testbit 255 n) eqn:E; rewrite ?andb_true_r, ?andb_false_r;
    [|reflexivity].
  f_equal.
  assert (n < 8).
  { destruct (Z.ltb_spec n 8); [assumption|].
    change 255 with (Z.ones 8) in E. rewrite Z.ones_spec_high in E by lia.
    discriminate. }
  replace (c - 256) with (c + (-1) * 2 ^ 8) by lia.
  rewrite <- (Z.mod_pow2_bits_low (c + -1 * 2 ^ 8) 8 n) by lia.
  rewrite Z.mod_add by lia. rewrite Z.mod_pow2_bits_low by lia. reflexivity.
Qed.

Lemma xor_bytes_involutive s :
  Forall is_byte s -> xor_bytes XorKey (xor_bytes XorKey s) = s.
Proof.
  unfold xor_bytes. induction 1 as [|c s Hc Hs IH]; simpl; [done|].
  f_equal; [by apply xor_byte_involutive|exact IH].
Qed.


Lemma xor_bytes_is_byte s : Forall is_byte (xor_bytes XorKey s).
Proof.
  unfold xor_bytes. induction s; simpl; constructor;
    auto using xor_byte_is_byte.
Qed.

End Bytes.

Lemma isCString_inv elts :
  isCString elts = true -> elts = getAsCString elts ++ [0].
Proof.
  unfold isCString, getAsCString. intros H.
  destruct (reverse elts) as [|z init] eqn:E; [done|].
  apply andb_prop in H as [Hz _]. apply Z.eqb_eq in Hz. subst z.
  assert (elts = reverse init ++ [0]) as ->.
  { rewrite <- (reverse_involutive elts), E. by rewrite reverse_cons. }
  by rewrite removelast_last.
Qed.

(** A payload ending in a zero byte is its text followed by that byte. *)
Lemma last_zero_inv elts :
  last elts = Some 0 -> elts = getAsCString elts ++ [0].
Proof.
  intros (l & ->)%last_Some. unfold getAsCString. by rewrite removelast_last.
Qed.


Lemma isCString_last elts : isCString elts = true -> last elts = Some 0.
Proof. intros H. rewrite (isCString_inv elts H). apply last_snoc. Qed.

Lemma allZeros_snoc_0 s : allZeros (s ++ [0]) = allZeros s.
Proof.
  unfold allZeros. rewrite forallb_app. simpl. by rewrite andb_true_r.
Qed.

Lemma allZeros_replicate elts :
  allZeros elts = true -> replicate (length elts) 0 = elts.
Proof.
  unfold allZeros. induction elts as [|x elts IH]; [done|].
  cbn [forallb length replicate].
  intros [Hx H]%andb_prop. apply Z.eqb_eq in Hx. subst x. f_equal. by apply IH.
Qed.

Lemma payload_ConstantDataArray_get elts :
  payload (ConstantDataArray_get elts) = Some elts.
Proof.
  unfold ConstantDataArray_get. destruct (allZeros elts) eqn:E; simpl; [|done].
  by rewrite allZeros_replicate.
Qed.

Lemma Forall_is_byte_getAsCString elts :
  Forall is_byte elts -> Forall is_byte (getAsCString elts).
Proof.
  unfold getAsCString. induction 1 as [|x l Hx Hl IH]; simpl; [constructor|].
  destruct l; [constructor|]. constructor; [exact Hx|exact IH].
Qed.

Section Encrypted.
Variable XorKey : Z.

Lemma getAsCString_encrypted elts :
  getAsCString (encrypted XorKey elts) = xor_bytes XorKey (getAsCString elts).
Proof. unfold encrypted. unfold getAsCString at 1. by rewrite removelast_last. Qed.

(** Whatever the key, the new initializer ends in a zero byte. *)
Lemma encrypted_last elts : last (encrypted XorKey elts) = Some 0.
Proof. unfold encrypted. apply last_snoc. Qed.

Lemma encrypted_length elts :
  elts ≠ [] -> length (encrypted XorKey elts) = length elts.
Proof.
  intros Hne. unfold encrypted, xor_bytes, getAsCString.
  rewrite length_app, length_fmap. simpl.
  destruct (exists_last Hne) as (l & a & ->).
  rewrite removelast_last, length_app. simpl. lia.
Qed.

(** On a payload ending in a zero byte the whole transformation undoes
    itself. *)
Lemma encrypted_twice elts :
  last elts = Some 0 -> Forall is_byte elts ->
  encrypted XorKey (encrypted XorKey elts) = elts.
Proof.
  intros Hc Hb. unfold encrypted at 1. rewrite getAsCString_encrypted.
  rewrite xor_bytes_involutive by by apply Forall_is_byte_getAsCString.
  symmetry. by apply last_zero_inv.
Qed.


Lemma iter_encrypted_getAsCString n elts :
  Forall is_byte elts ->
  getAsCString (Nat.iter n (encrypted XorKey) elts) =
  if Nat.even n then getAsCString elts
  else xor_bytes XorKey (getAsCString elts).
Proof.
  intros Hb. induction n as [|n IH]; [done|].
  change (Nat.iter (S n) (encrypted XorKey) elts)
    with (encrypted XorKey (Nat.iter n (encrypted XorKey) elts)).
  rewrite getAsCString_encrypted, IH, Nat.even_succ, <- Nat.negb_even.
  destruct (Nat.even n); simpl; [done|].
  apply xor_bytes_involutive. by apply Forall_is_byte_getAsCString.
Qed.

Lemma encrypted_iter_not_zero n elts :
  Forall is_byte elts ->
  allZeros (getAsCString elts) = false ->
  allZeros (xor_bytes XorKey (getAsCString elts)) = false ->
  allZeros (encrypted XorKey (Nat.iter n (encrypted XorKey) elts)) = false.
Proof.
  intros Hb H1 H2. unfold encrypted at 1.
  rewrite allZeros_snoc_0, iter_encrypted_getAsCString by exact Hb.
  destruct (Nat.even n); [exact H2|].
  rewrite xor_bytes_involutive by by apply Forall_is_byte_getAsCString.
  exact H1.
Qed.

End Encrypted.

(** ** Names *)

Section Strings.
Local Open Scope string_scope.
Local Open Scope nat_scope.

Lemma string_app_cons x (a b : string) :
  String x a +:+ b = String x (a +:+ b).
Proof. reflexivity. Qed.

Lemma string_app_assoc (a b c : string) : (a +:+ b) +:+ c = a +:+ (b +:+ c).
Proof.
  induction a as [|x a IH]; [reflexivity|].
  rewrite !string_app_cons. f_equal. exact IH.
Qed.

Lemma string_app_nil_r (a : string) : a +:+ "" = a.
Proof.
  induction a as [|x a IH]; [reflexivity|].
  rewrite string_app_cons. f_equal. exact IH.
Qed.

Lemma string_app_length (a b : string) :
  String.length (a +:+ b) = String.length a + String.length b.
Proof.
  induction a as [|x a IH]; [reflexivity|].
  rewrite string_app_cons. simpl. f_equal. exact IH.
Qed.

Lemma substring_all (b : string) : substring 0 (String.length b) b = b.
Proof. induction b as [|x b IH]; simpl; [reflexivity|]. f_equal. exact IH. Qed.

Lemma substring_app_r (a b : string) :
  substring (String.length a) (String.length b) (a +:+ b) = b.
Proof.
  induction a as [|x a IH]; [apply substring_all|].
  rewrite string_app_cons. simpl. exact IH.
Qed.

Lemma endswith_app (a b : string) : endswith (a +:+ b) b = true.
Proof.
  unfold endswith. rewrite string_app_length.
  apply andb_true_intro. split.
  - apply Nat.leb_le. lia.
  - replace (String.length a + String.length b - String.length b)
      with (String.length a) by lia.
    rewrite substring_app_r. apply String.eqb_refl.
Qed.

Lemma string_app_inv_tail (a b c : string) : a +:+ c = b +:+ c -> a = b.
Proof.
  revert b. induction a as [|x a IH]; intros [|y b] H.
  - reflexivity.
  - apply (f_equal String.length) in H.
    rewrite !string_app_length in H. simpl in H. lia.
  - apply (f_equal String.length) in H.
    rewrite !string_app_length in H. simpl in H. lia.
  - rewrite !string_app_cons in H. injection H as -> H. f_equal. by apply IH.
Qed.

End Strings.

Lemma candidate_inj base : Inj (=) (=) (candidate base).
Proof.
  intros n m H. unfold candidate in H.
  apply (inj (String.app base)) in H.
  apply (inj (String.app ".")) in H.
  by apply (inj pretty) in H.
Qed.

Lemma makeUniqueName_spec fuel vmap base last :
  ∃ k, (last < k)%nat ∧
       makeUniqueName fuel vmap base last = (candidate base k, k).
Proof.
  revert last. induction fuel as [|fuel IH]; intros last; simpl.
  - exists (S last). split; [lia|reflexivity].
  - case_bool_decide.
    + destruct (IH (S last)) as (k & Hk & ->). exists k. split; [lia|reflexivity].
    + exists (S last). split; [lia|reflexivity].
Qed.

(** With [tried] the candidates already found taken, the search ends on a
    free name before the fuel is spent: the candidates are pairwise
    distinct, and the table holds only [length vmap] names. *)
Lemma makeUniqueName_fresh_aux fuel vmap base last (tried : list string) :
  NoDup tried ->
  (∀ x, x ∈ tried -> x ∈ vmap) ->
  (∀ x, x ∈ tried -> ∃ k, (k <= last)%nat ∧ x = candidate base k) ->
  (length vmap <= fuel + length tried)%nat ->
  (makeUniqueName fuel vmap base last).1 ∉ vmap.
Proof.
  revert last tried.
  induction fuel as [|fuel IH]; intros last tried Hnd Hin Hcand Hlen.
  - simpl. intros Hc.
    assert (NoDup (candidate base (S last) :: tried)) as Hnd'.
    { constructor; [|assumption]. intros Ht.
      destruct (Hcand _ Ht) as (k & Hk & Heq). apply candidate_inj in Heq. lia. }
    assert (candidate base (S last) :: tried ⊆+ vmap) as Hsub.
    { apply NoDup_submseteq; [assumption|]. intros x Hx.
      apply elem_of_cons in Hx as [->|Hx]; [exact Hc|by apply Hin]. }
    apply submseteq_length in Hsub. simpl in Hsub, Hlen. lia.
  - simpl. case_bool_decide as Hc; [|exact Hc].
    apply (IH (S last) (candidate base (S last) :: tried)).
    + constructor; [|assumption]. intros Ht.
      destruct (Hcand _ Ht) as (k & Hk & Heq). apply candidate_inj in Heq. lia.
    + intros x Hx. apply elem_of_cons in Hx as [->|Hx]; [exact Hc|by apply Hin].
    + intros x Hx. apply elem_of_cons in Hx as [->|Hx].
      * exists (S last). split; [lia|reflexivity].
      * destruct (Hcand _ Hx) as (k & Hk & Heq). exists k. split; [lia|assumption].
    + simpl. lia.
Qed.

Lemma makeUniqueName_fresh vmap base last :
  (makeUniqueName (length vmap) vmap base last).1 ∉ vmap.
Proof.
  apply (makeUniqueName_fresh_aux _ _ _ _ []).
  - constructor.
  - intros x Hx. by apply elem_of_nil in Hx.
  - intros x Hx. by apply elem_of_nil in Hx.
  - simpl. lia.
Qed.

Lemma createValueName_fresh vmap last Name :
  (createValueName vmap last Name).1 ∉ vmap.
Proof.
  unfold createValueName. case_bool_decide as H; [|exact H].
  apply makeUniqueName_fresh.
Qed.

Lemma createValueName_free vmap last Name :
  Name ∉ vmap -> createValueName vmap last Name = (Name, last).
Proof. intros H. unfold createValueName. by rewrite bool_decide_eq_false_2. Qed.

Lemma createValueName_entered vmap last Name :
  entered_as Name (createValueName vmap last Name).1.
Proof.
  unfold createValueName. case_bool_decide.
  - destruct (makeUniqueName_spec (length vmap) vmap Name last) as (k & _ & ->).
    right. by exists k.
  - by left.
Qed.

Lemma entered_as_prefix Name n :
  entered_as Name n -> ∃ tail, n = (Name +:+ tail)%string.
Proof.
  intros [->|[k ->]].
  - exists ""%string. by rewrite string_app_nil_r.
  - by eexists.
Qed.

(** ** Collected positions *)

Section Collect.
Context {A : Type} (p : A -> bool).
Local Open Scope nat_scope.

Lemma elem_of_collect (l : list A) i j :
  j ∈ collect p i l ↔ ∃ x, i <= j ∧ l !! (j - i) = Some x ∧ p x = true.
Proof.
  revert i. induction l as [|x l IH]; intros i; simpl.
  - split; [intros H; by apply elem_of_nil in H|].
    intros (y & _ & H & _). discriminate.
  - assert (j ∈ collect p (S i) l ↔
            ∃ y, i <= j ∧ (x :: l) !! (j - i) = Some y ∧ p y = true ∧ j ≠ i)
      as Htail.
    { rewrite IH. split.
      - intros (y & Hle & Hy & Hp). exists y.
        replace (j - i) with (S (j - S i)) by lia. simpl.
        repeat split; auto; lia.
      - intros (y & Hle & Hy & Hp & Hne). exists y.
        replace (j - i) with (S (j - S i)) in Hy by lia. simpl in Hy.
        repeat split; auto; lia. }
    destruct (p x) eqn:Hpx.
    + rewrite elem_of_cons, Htail. split.
      * intros [->|(y & ? & ? & ? & ?)]; [|by eauto].
        exists x. rewrite Nat.sub_diag. auto.
      * intros (y & Hle & Hy & Hp).
        destruct (decide (j = i)) as [->|Hne]; [by left|right; eauto 6].
    + rewrite Htail. split.
      * intros (y & ? & ? & ? & ?); eauto.
      * intros (y & Hle & Hy & Hp). exists y. repeat split; auto.
        intros ->. rewrite Nat.sub_diag in Hy. simpl in Hy. congruence.
Qed.

Lemma elem_of_collect_0 (l : list A) j :
  j ∈ collect p 0 l ↔ ∃ x, l !! j = Some x ∧ p x = true.
Proof.
  rewrite elem_of_collect. rewrite Nat.sub_0_r. split.
  - intros (x & _ & ? & ?); eauto.
  - intros (x & ? & ?). exists x. repeat split; auto; lia.
Qed.

Lemma NoDup_collect (l : list A) i : NoDup (collect p i l).
Proof.
  revert i. induction l as [|x l IH]; intros i; simpl; [constructor|].
  destruct (p x); [|apply IH].
  constructor; [|apply IH].
  rewrite elem_of_collect. intros (y & Hle & _). lia.
Qed.

Lemma collect_nil_iff (l : list A) i :
  collect p i l = [] ↔ ∀ x, x ∈ l -> p x = false.
Proof.
  revert i. induction l as [|x l IH]; intros i; simpl.
  - split; [|done]. intros _ x Hx. by apply elem_of_nil in Hx.
  - destruct (p x) eqn:Hpx.
    + split; [done|]. intros H.
      specialize (H x (list_elem_of_here _ _)). congruence.
    + rewrite IH. split.
      * intros H y Hy. apply elem_of_cons in Hy as [->|Hy]; auto.
      * intros H y Hy. apply H. by apply list_elem_of_further.
Qed.

End Collect.

(** ** The symbol table stays free of duplicates *)

Lemma NoDup_insert_fresh (L : list string) i n :
  NoDup L -> n ∉ delete i L -> NoDup (<[i:=n]> L).
Proof.
  intros Hnd Hn.
  destruct (decide (i < length L)%nat) as [Hi|Hi].
  - rewrite insert_take_drop by exact Hi.
    rewrite delete_take_drop in Hn.
    assert (NoDup (take i L ++ drop (S i) L)) as Hnd'.
    { rewrite <- delete_take_drop.
      eapply sublist_NoDup; [exact Hnd|apply sublist_delete]. }
    rewrite <- Permutation_middle. by constructor.
  - rewrite list_insert_ge by lia. exact Hnd.
Qed.


Lemma lookup_second_new {A} (l : list A) (a b : A) :
  (l ++ [a; b]) !! S (length l) = Some b.
Proof. induction l as [|x l IH]; [reflexivity|exact IH]. Qed.

Lemma newGlobalVariable_globals M c l init Name :
  globals (newGlobalVariable M c l init Name) =
  globals M ++ [{| gname := (createValueName (symbols M) (LastUnique M) Name).1;
                   glinkage := l; isConstant := c; initializer := Some init |}].
Proof. unfold newGlobalVariable. by destruct createValueName. Qed.

Lemma newGlobalVariable_functions M c l init Name :
  functions (newGlobalVariable M c l init Name) = functions M.
Proof. unfold newGlobalVariable. by destruct createValueName. Qed.

Lemma newGlobalVariable_wf M c l init Name :
  wf M -> wf (newGlobalVariable M c l init Name).
Proof.
  unfold wf, symbols. intros Hwf.
  rewrite newGlobalVariable_globals, newGlobalVariable_functions.
  rewrite fmap_app. simpl.
  pose proof (createValueName_fresh (symbols M) (LastUnique M) Name) as Hf.
  unfold symbols in Hf.
  rewrite <- app_assoc. simpl.
  rewrite <- Permutation_middle. by constructor.
Qed.

Lemma createFunction_functions M l Name body :
  functions (createFunction M l Name body) =
  functions M ++ [{| fname := (createValueName (symbols M) (LastUnique M) Name).1;
                     flinkage := l; fblocks := body |}].
Proof. unfold createFunction. by destruct createValueName. Qed.

Lemma createFunction_globals M l Name body :
  globals (createFunction M l Name body) = globals M.
Proof. unfold createFunction. by destruct createValueName. Qed.

Lemma createFunction_wf M l Name body :
  wf M -> wf (createFunction M l Name body).
Proof.
  unfold wf, symbols. intros Hwf.
  rewrite createFunction_globals, createFunction_functions.
  rewrite fmap_app. simpl.
  pose proof (createValueName_fresh (symbols M) (LastUnique M) Name) as Hf.
  unfold symbols in Hf.
  rewrite app_assoc.
  rewrite <- Permutation_cons_append. by constructor.
Qed.

Lemma setInitializer_globals M i g c :
  globals M !! i = Some g ->
  globals (setInitializer M i c) = <[i := withInitializer g c]> (globals M).
Proof. intros H. unfold setInitializer. by rewrite H. Qed.

Lemma setInitializer_functions M i c :
  functions (setInitializer M i c) = functions M.
Proof. unfold setInitializer. by destruct (globals M !! i). Qed.

Lemma setInitializer_symbols M i c :
  symbols (setInitializer M i c) = symbols M.
Proof.
  unfold setInitializer, symbols.
  destruct (globals M !! i) as [g|] eqn:E; [|done].
  simpl. f_equal. rewrite list_fmap_insert. simpl.
  apply list_insert_id. by rewrite list_lookup_fmap, E.
Qed.

Lemma setInitializer_wf M i c : wf M -> wf (setInitializer M i c).
Proof. unfold wf. by rewrite setInitializer_symbols. Qed.

Lemma setName_globals M i g Name :
  globals M !! i = Some g ->
  ∃ n, entered_as Name n ∧
       (n ∉ (gname <$> delete i (globals M)) ++ (fname <$> functions M)) ∧
       globals (setName M i Name) = <[i := withName g n]> (globals M).
Proof.
  intros H. unfold setName. rewrite H.
  set (vmap := (gname <$> delete i (globals M)) ++ (fname <$> functions M)).
  pose proof (createValueName_fresh vmap (LastUnique M) Name) as Hf.
  pose proof (createValueName_entered vmap (LastUnique M) Name) as He.
  destruct (createValueName vmap (LastUnique M) Name) as [n last] eqn:E.
  exists n. simpl in *. repeat split; auto.
Qed.

Lemma setName_functions M i Name : functions (setName M i Name) = functions M.
Proof.
  unfold setName. destruct (globals M !! i); [|done].
  by destruct createValueName.
Qed.

Lemma setName_wf M i Name : wf M -> wf (setName M i Name).
Proof.
  intros Hwf. destruct (globals M !! i) as [g|] eqn:E.
  - destruct (setName_globals M i g Name E) as (n & _ & Hfresh & Hg).
    unfold wf, symbols. rewrite Hg, setName_functions, list_fmap_insert. simpl.
    assert (i < length (gname <$> globals M))%nat as Hi.
    { rewrite length_fmap. by eapply lookup_lt_Some. }
    rewrite <- insert_app_l by exact Hi.
    apply NoDup_insert_fresh; [exact Hwf|].
    rewrite list_fmap_delete in Hfresh.
    rewrite delete_take_drop. rewrite delete_take_drop in Hfresh.
    rewrite take_app_le by lia. rewrite drop_app_le by lia.
    by rewrite <- app_assoc in Hfresh.
  - unfold setName. by rewrite E.
Qed.

(** ** One string, then all of them *)

Section Encrypt.
Variable XorKey : Z.

Lemma encryptString_globals M i g ety elts :
  globals M !! i = Some g ->
  initializer g = Some (ConstantDataArray ety elts) ->
  ∃ n_obf,
    entered_as (gname g +:+ "_obf") n_obf ∧
    globals (encryptString XorKey M i) =
      <[i := {| gname := n_obf; glinkage := glinkage g;
                isConstant := isConstant g;
                initializer :=
                  Some (ConstantDataArray_get (encrypted XorKey elts)) |}]>
        (globals M)
      ++ [{| gname := (createValueName (symbols M) (LastUnique M)
                         (gname g +:+ "_enc")).1;
             glinkage := PrivateLinkage; isConstant := true;
             initializer :=
               Some (ConstantDataArray_get (encrypted XorKey elts)) |}].
Proof.
  intros Hg Hinit. unfold encryptString. rewrite Hg, Hinit.
  set (c := ConstantDataArray_get (encrypted XorKey elts)).
  set (M1 := newGlobalVariable M true PrivateLinkage c (gname g +:+ "_enc")).
  pose proof (newGlobalVariable_globals M true PrivateLinkage c
                (gname g +:+ "_enc")) as H1. fold M1 in H1.
  assert (i < length (globals M))%nat as Hi by (by eapply lookup_lt_Some).
  assert (globals M1 !! i = Some g) as Hg1.
  { rewrite H1, lookup_app_l by exact Hi. exact Hg. }
  pose proof (setInitializer_globals M1 i g c Hg1) as H2.
  set (M2 := setInitializer M1 i c) in *.
  assert (globals M2 !! i = Some (withInitializer g c)) as Hg2.
  { rewrite H2. apply list_lookup_insert_eq. rewrite H1, length_app. simpl. lia. }
  destruct (setName_globals M2 i _ (gname g +:+ "_obf") Hg2)
    as (n_obf & Hobf & _ & H3).
  exists n_obf. split; [exact Hobf|].
  rewrite H3, H2, list_insert_insert_eq, H1.
  rewrite insert_app_l by exact Hi. reflexivity.
Qed.

Lemma encryptString_functions M i :
  functions (encryptString XorKey M i) = functions M.
Proof.
  unfold encryptString. destruct (globals M !! i) as [g|]; [|done].
  destruct (initializer g) as [[]|]; try done.
  by rewrite setName_functions, setInitializer_functions,
     newGlobalVariable_functions.
Qed.

Lemma encryptString_wf M i : wf M -> wf (encryptString XorKey M i).
Proof.
  intros Hwf. unfold encryptString. destruct (globals M !! i) as [g|]; [|done].
  destruct (initializer g) as [[]|]; try done.
  by apply setName_wf, setInitializer_wf, newGlobalVariable_wf.
Qed.

Lemma encryptString_other M i j g :
  globals M !! i = Some g -> i ≠ j ->
  globals (encryptString XorKey M j) !! i = Some g.
Proof.
  intros Hg Hne. destruct (globals M !! j) as [g'|] eqn:Hj.
  - destruct (initializer g') as [c|] eqn:Hc.
    + destruct c as [ety elts| | |];
        try (unfold encryptString; by rewrite Hj, Hc).
      destruct (encryptString_globals M j g' ety elts Hj Hc) as (n1 & _ & ->).
      rewrite lookup_app_l.
      * rewrite list_lookup_insert_ne by congruence. exact Hg.
      * rewrite length_insert. by eapply lookup_lt_Some.
    + unfold encryptString. by rewrite Hj, Hc.
  - unfold encryptString. by rewrite Hj.
Qed.

Lemma encryptString_length M i :
  encryptable M i ->
  length (globals (encryptString XorKey M i)) = S (length (globals M)).
Proof.
  intros (g & ety & elts & Hg & Hc).
  destruct (encryptString_globals M i g ety elts Hg Hc) as (n1 & _ & ->).
  rewrite length_app, length_insert. simpl. lia.
Qed.

Lemma encryptable_other M i j :
  encryptable M i -> i ≠ j -> encryptable (encryptString XorKey M j) i.
Proof.
  intros (g & ety & elts & Hg & Hc) Hne. exists g, ety, elts.
  split; [by apply encryptString_other|exact Hc].
Qed.

Lemma encryptAll_functions l M :
  functions (foldl (encryptString XorKey) M l) = functions M.
Proof.
  revert M. induction l as [|j l IH]; intros M; simpl; [done|].
  by rewrite IH, encryptString_functions.
Qed.

Lemma encryptAll_wf l M : wf M -> wf (foldl (encryptString XorKey) M l).
Proof.
  revert M. induction l as [|j l IH]; intros M Hwf; simpl; [done|].
  by apply IH, encryptString_wf.
Qed.

Lemma encryptAll_other l M i g :
  globals M !! i = Some g -> i ∉ l ->
  globals (foldl (encryptString XorKey) M l) !! i = Some g.
Proof.
  revert M. induction l as [|j l IH]; intros M Hg Hni; simpl; [done|].
  apply not_elem_of_cons in Hni as [Hne Hni].
  apply IH; [|exact Hni]. by apply encryptString_other.
Qed.

Lemma encryptAll_self l M i g ety elts :
  NoDup l -> i ∈ l ->
  globals M !! i = Some g ->
  initializer g = Some (ConstantDataArray ety elts) ->
  ∃ n_obf,
    entered_as (gname g +:+ "_obf") n_obf ∧
    globals (foldl (encryptString XorKey) M l) !! i =
      Some {| gname := n_obf; glinkage := glinkage g;
              isConstant := isConstant g;
              initializer :=
                Some (ConstantDataArray_get (encrypted XorKey elts)) |}.
Proof.
  revert M. induction l as [|j l IH]; intros M Hnd Hin Hg Hc; simpl.
  - by apply elem_of_nil in Hin.
  - apply NoDup_cons in Hnd as [Hj Hnd].
    destruct (decide (i = j)) as [->|Hne].
    + destruct (encryptString_globals M j g ety elts Hg Hc) as (n1 & H1 & Heq).
      exists n1. split; [exact H1|].
      apply encryptAll_other; [|exact Hj].
      rewrite Heq, lookup_app_l.
      * apply list_lookup_insert_eq. by eapply lookup_lt_Some.
      * rewrite length_insert. by eapply lookup_lt_Some.
    + apply elem_of_cons in Hin as [?|Hin]; [done|].
      apply IH; auto. by apply encryptString_other.
Qed.

Lemma encryptAll_length l M :
  NoDup l -> (∀ i, i ∈ l -> encryptable M i) ->
  length (globals (foldl (encryptString XorKey) M l)) =
  (length (globals M) + length l)%nat.
Proof.
  revert M. induction l as [|j l IH]; intros M Hnd Hall; simpl; [lia|].
  apply NoDup_cons in Hnd as [Hj Hnd].
  rewrite IH; [|exact Hnd|].
  - rewrite encryptString_length; [lia|]. apply Hall. left.
  - intros i Hi. apply encryptable_other.
    + apply Hall. by right.
    + intros ->. done.
Qed.

(** The copy made for the [k]-th collected string sits [k] places after the
    old end of the list, under the name the symbol table gave it when the
    strings before it had been processed. *)
Lemma encryptAll_new l M k i g ety elts :
  NoDup l -> (∀ i, i ∈ l -> encryptable M i) ->
  l !! k = Some i ->
  globals M !! i = Some g ->
  initializer g = Some (ConstantDataArray ety elts) ->
  let Mb := foldl (encryptString XorKey) M (take k l) in
  globals (foldl (encryptString XorKey) M l) !! (length (globals M) + k)%nat =
    Some {| gname := (createValueName (symbols Mb) (LastUnique Mb)
                        (gname g +:+ "_enc")).1;
            glinkage := PrivateLinkage; isConstant := true;
            initializer :=
              Some (ConstantDataArray_get (encrypted XorKey elts)) |}.
Proof.
  revert M k. induction l as [|j l IH]; intros M k Hnd Hall Hk Hg Hc; simpl.
  - discriminate.
  - apply NoDup_cons in Hnd as [Hj Hnd].
    assert (∀ i', i' ∈ l -> encryptable (encryptString XorKey M j) i') as Hall'.
    { intros i' Hi'. apply encryptable_other.
      - apply Hall. by right.
      - intros ->. done. }
    destruct k as [|k]; simpl in Hk.
    + injection Hk as ->. simpl.
      destruct (encryptString_globals M i g ety elts Hg Hc) as (n1 & _ & Heq).
      apply encryptAll_other.
      * rewrite Heq, Nat.add_0_r.
        rewrite lookup_app_r by (rewrite length_insert; lia).
        rewrite length_insert, Nat.sub_diag. reflexivity.
      * intros Hin. destruct (Hall (length (globals M) + 0)%nat)
          as (g' & _ & _ & Hg' & _); [by right|].
        apply lookup_lt_Some in Hg'. lia.
    + assert (i ≠ j) as Hne.
      { intros ->. apply Hj. by eapply list_elem_of_lookup_2. }
      pose proof (IH (encryptString XorKey M j) k Hnd Hall' Hk
                     (encryptString_other M i j g Hg Hne) Hc) as Hl.
      rewrite encryptString_length in Hl by (apply Hall; left).
      replace (length (globals M) + S k)%nat
        with (S (length (globals M)) + k)%nat by lia.
      exact Hl.
Qed.


End Encrypt.

(** ** Counters *)

Lemma incr_in_range c : in_range (incr c).
Proof. unfold in_range, incr. apply Z.mod_pos_bound. lia. Qed.

Lemma bump_in_range n c : in_range (bump n c).
Proof. unfold in_range, bump. apply Z.mod_pos_bound. lia. Qed.

Lemma bump_0 c : in_range c -> bump 0 c = c.
Proof.
  unfold in_range, bump. intros H. rewrite Z.add_0_r. by apply Z.mod_small.
Qed.

Lemma bump_incr n c : bump n (incr c) = bump (S n) c.
Proof.
  unfold bump, incr. rewrite Zplus_mod_idemp_l. f_equal. lia.
Qed.

Lemma incr_bump n c : incr (bump n c) = bump (S n) c.
Proof.
  unfold bump, incr. rewrite Zplus_mod_idemp_l. f_equal. lia.
Qed.

Lemma bump_bump n m c : bump n (bump m c) = bump (m + n) c.
Proof.
  unfold bump. rewrite Zplus_mod_idemp_l. f_equal. lia.
Qed.

Section Passes.
Variables XorKey BogusCount Cycles : Z.
Variable rand : nat -> Z.

(** *** obfuscateStrings *)

Lemma obfuscateStrings_fold l st :
  foldl (fun s GV =>
           {| module := encryptString XorKey (module s) GV;
              strings_obf_count := incr (strings_obf_count s);
              fake_funcs_inserted := fake_funcs_inserted s;
              cycles_completed := cycles_completed s;
              rand_calls := rand_calls s |}) st l =
  {| module := foldl (encryptString XorKey) (module st) l;
     strings_obf_count := foldl (fun c _ => incr c) (strings_obf_count st) l;
     fake_funcs_inserted := fake_funcs_inserted st;
     cycles_completed := cycles_completed st;
     rand_calls := rand_calls st |}.
Proof.
  revert st. induction l as [|j l IH]; intros st; simpl.
  - by destruct st.
  - by rewrite IH.
Qed.

Lemma foldl_incr {A} (l : list A) c :
  in_range c -> foldl (fun c _ => incr c) c l = bump (length l) c.
Proof.
  revert c. induction l as [|x l IH]; intros c Hc; simpl.
  - by rewrite bump_0.
  - rewrite IH by apply incr_in_range. apply bump_incr.
Qed.

Lemma obfuscateStrings_eq st :
  obfuscateStrings XorKey st =
  (negb (bool_decide (stringGlobals (module st) = [])),
   {| module := foldl (encryptString XorKey) (module st)
                  (stringGlobals (module st));
      strings_obf_count :=
        foldl (fun c _ => incr c) (strings_obf_count st)
              (stringGlobals (module st));
      fake_funcs_inserted := fake_funcs_inserted st;
      cycles_completed := cycles_completed st;
      rand_calls := rand_calls st |}).
Proof. unfold obfuscateStrings. by rewrite obfuscateStrings_fold. Qed.

Lemma stringGlobals_encryptable M i :
  i ∈ stringGlobals M ->
  ∃ g elts, globals M !! i = Some g ∧ isStringGlobal g = true ∧
            initializer g = Some (ConstantDataArray Int8Ty elts).
Proof.
  unfold stringGlobals. rewrite elem_of_collect_0.
  intros (g & Hg & Hs). exists g.
  pose proof Hs as Hs'.
  unfold isStringGlobal in Hs'. destruct (initializer g) as [c|] eqn:Hc; [|done].
  apply andb_prop in Hs' as [_ Hs'].
  destruct c as [[] elts| | |]; try done. by exists elts.
Qed.

Lemma stringGlobals_all_encryptable M i :
  i ∈ stringGlobals M -> encryptable M i.
Proof.
  intros (g & elts & Hg & _ & Hc)%stringGlobals_encryptable.
  by exists g, Int8Ty, elts.
Qed.

(** *** insertBogusFunctions *)

Lemma insertBogusFunctions_loop_spec n i st :
  let st' := insertBogusFunctions_loop rand n i st in
  globals (module st') = globals (module st) ∧
  (∃ news, functions (module st') = functions (module st) ++ news ∧
           length news = n ∧
           ∀ k F, news !! k = Some F ->
             flinkage F = PrivateLinkage ∧
             entered_as (bogus_name (i + Z.of_nat k)
                           (rand (rand_calls st + k)%nat)) (fname F)) ∧
  (wf (module st) -> wf (module st')) ∧
  strings_obf_count st' = strings_obf_count st ∧
  cycles_completed st' = cycles_completed st ∧
  rand_calls st' = (rand_calls st + n)%nat ∧
  fake_funcs_inserted st' = Nat.iter n incr (fake_funcs_inserted st).
Proof.
  revert i st. induction n as [|n IH]; intros i st; simpl.
  - split_and!; try done.
    exists []. rewrite app_nil_r. split_and!; try done.
  - set (M' := createFunction (module st) PrivateLinkage
                 (bogus_name i (rand (rand_calls st))) [bogus_entry i]).
    set (st1 := {| module := M'; strings_obf_count := strings_obf_count st;
                   fake_funcs_inserted := incr (fake_funcs_inserted st);
                   cycles_completed := cycles_completed st;
                   rand_calls := S (rand_calls st) |}).
    destruct (IH (i + 1) st1) as (Hg & (news & Hf & Hlen & Hnews) & Hwf & Hs & Hc & Hr & Hfk).
    simpl in *.
    split_and!.
    + rewrite Hg. apply createFunction_globals.
    + eexists (_ :: news). split; [|split].
      * rewrite Hf. unfold M'. rewrite createFunction_functions.
        rewrite <- app_assoc. reflexivity.
      * simpl. by rewrite Hlen.
      * intros [|k] F HF; simpl in HF.
        -- injection HF as <-. simpl. split; [done|].
           rewrite Z.add_0_r, Nat.add_0_r. apply createValueName_entered.
        -- destruct (Hnews k F HF) as [H1 H2]. split; [done|].
           replace (i + Z.of_nat (S k)) with (i + 1 + Z.of_nat k) by lia.
           replace (rand_calls st + S k)%nat with (S (rand_calls st + k)) by lia.
           exact H2.
    + intros H. apply Hwf. by apply createFunction_wf.
    + exact Hs.
    + exact Hc.
    + rewrite Hr. lia.
    + rewrite Hfk. clear. induction n as [|n IH]; simpl; [done|]. by rewrite IH.
Qed.

Lemma iter_incr n c : in_range c -> Nat.iter n incr c = bump n c.
Proof.
  intros Hc. induction n as [|n IH]; simpl.
  - by rewrite bump_0.
  - rewrite IH. apply incr_bump.
Qed.

(** *** renamePrivateGlobals *)

Lemma renameGlobal_functions M i : functions (renameGlobal M i) = functions M.
Proof.
  unfold renameGlobal. destruct (globals M !! i); [|done]. apply setName_functions.
Qed.

Lemma renameGlobal_wf M i : wf M -> wf (renameGlobal M i).
Proof.
  unfold renameGlobal. destruct (globals M !! i); [|done]. apply setName_wf.
Qed.

Lemma renameGlobal_self M i g :
  globals M !! i = Some g ->
  ∃ n, entered_as (gname g +:+ "_obf") n ∧
       globals (renameGlobal M i) = <[i := withName g n]> (globals M).
Proof.
  intros Hg. unfold renameGlobal. rewrite Hg.
  destruct (setName_globals M i g (gname g +:+ "_obf") Hg)
    as (n & H1 & _ & H2).
  by exists n.
Qed.

Lemma renameGlobal_other M i j g :
  globals M !! i = Some g -> i ≠ j -> globals (renameGlobal M j) !! i = Some g.
Proof.
  intros Hg Hne. destruct (globals M !! j) as [g'|] eqn:Hj.
  - destruct (renameGlobal_self M j g' Hj) as (n & _ & ->).
    by rewrite list_lookup_insert_ne.
  - unfold renameGlobal. by rewrite Hj.
Qed.

Lemma renameGlobal_length M i :
  length (globals (renameGlobal M i)) = length (globals M).
Proof.
  destruct (globals M !! i) as [g'|] eqn:Hj.
  - destruct (renameGlobal_self M i g' Hj) as (n & _ & ->).
    apply length_insert.
  - unfold renameGlobal. by rewrite Hj.
Qed.

Lemma renameAll_functions l M :
  functions (foldl renameGlobal M l) = functions M.
Proof.
  revert M. induction l as [|j l IH]; intros M; simpl; [done|].
  by rewrite IH, renameGlobal_functions.
Qed.

Lemma renameAll_wf l M : wf M -> wf (foldl renameGlobal M l).
Proof.
  revert M. induction l as [|j l IH]; intros M Hwf; simpl; [done|].
  by apply IH, renameGlobal_wf.
Qed.

Lemma renameAll_length l M :
  length (globals (foldl renameGlobal M l)) = length (globals M).
Proof.
  revert M. induction l as [|j l IH]; intros M; simpl; [done|].
  by rewrite IH, renameGlobal_length.
Qed.

Lemma renameAll_other l M i g :
  globals M !! i = Some g -> i ∉ l ->
  globals (foldl renameGlobal M l) !! i = Some g.
Proof.
  revert M. induction l as [|j l IH]; intros M Hg Hni; simpl; [done|].
  apply not_elem_of_cons in Hni as [Hne Hni].
  apply IH; [|exact Hni]. by apply renameGlobal_other.
Qed.

Lemma renameAll_self l M i g :
  NoDup l -> i ∈ l -> globals M !! i = Some g ->
  ∃ n, entered_as (gname g +:+ "_obf") n ∧
       globals (foldl renameGlobal M l) !! i = Some (withName g n).
Proof.
  revert M. induction l as [|j l IH]; intros M Hnd Hin Hg; simpl.
  - by apply elem_of_nil in Hin.
  - apply NoDup_cons in Hnd as [Hj Hnd].
    destruct (decide (i = j)) as [->|Hne].
    + destruct (renameGlobal_self M j g Hg) as (n & Hn & Heq).
      exists n. split; [exact Hn|].
      apply renameAll_other; [|exact Hj].
      rewrite Heq. apply list_lookup_insert_eq. by eapply lookup_lt_Some.
    + apply elem_of_cons in Hin as [?|Hin]; [done|].
      apply IH; auto. by apply renameGlobal_other.
Qed.

Lemma renamePrivateGlobals_eq st :
  renamePrivateGlobals st =
  (negb (bool_decide (toRename (module st) = [])),
   withModule st (foldl renameGlobal (module st) (toRename (module st)))).
Proof. reflexivity. Qed.

(** *** insertDeadConditionals *)

Lemma insertDeadConditionals_loop_names Fs Fs' :
  insertDeadConditionals_loop Fs = Some Fs' -> fname <$> Fs' = fname <$> Fs.
Proof.
  revert Fs'. induction Fs as [|F Fs IH]; intros Fs' H; simpl in H; [done|].
  assert (∀ r, (fun r => F :: r) <$> insertDeadConditionals_loop Fs = Some r ->
               fname <$> r = fname <$> (F :: Fs)) as Hskip.
  { intros r Hr. destruct (insertDeadConditionals_loop Fs) as [Fs0|]; [|done].
    injection Hr as <-. simpl. f_equal. by apply IH. }
  destruct (isDeclaration F || startswith (fname F) "bogus_func_"); [by apply Hskip|].
  destruct (fblocks F) as [|EntryBB others]; [by apply Hskip|].
  destruct EntryBB as [|I0 rest]; [by apply Hskip|].
  injection H as <-. reflexivity.
Qed.

Lemma insertDeadConditionals_globals st :
  globals (module (insertDeadConditionals st).2) = globals (module st).
Proof.
  unfold insertDeadConditionals.
  by destruct (insertDeadConditionals_loop (functions (module st))).
Qed.

Lemma insertDeadConditionals_names st :
  fname <$> functions (module (insertDeadConditionals st).2) =
  fname <$> functions (module st).
Proof.
  unfold insertDeadConditionals.
  destruct (insertDeadConditionals_loop (functions (module st))) as [Fs|] eqn:E;
    [|done].
  simpl. by apply insertDeadConditionals_loop_names.
Qed.

Lemma insertDeadConditionals_counters st :
  let st' := (insertDeadConditionals st).2 in
  strings_obf_count st' = strings_obf_count st ∧
  fake_funcs_inserted st' = fake_funcs_inserted st ∧
  cycles_completed st' = cycles_completed st ∧
  rand_calls st' = rand_calls st.
Proof.
  unfold insertDeadConditionals.
  by destruct (insertDeadConditionals_loop (functions (module st))).
Qed.

Lemma insertDeadConditionals_wf st :
  wf (module st) -> wf (module (insertDeadConditionals st).2).
Proof.
  unfold wf, symbols.
  by rewrite insertDeadConditionals_globals, insertDeadConditionals_names.
Qed.

End Passes.

(** ** Cycles *)

Section Cycles.
Variables XorKey BogusCount : Z.
Variable rand : nat -> Z.

Local Abbreviation obf := (obfuscateStrings XorKey).
Local Abbreviation bogus := (insertBogusFunctions BogusCount rand).
Local Abbreviation rename := renamePrivateGlobals.
Local Abbreviation dead := insertDeadConditionals.
Local Abbreviation cycle := (cycle XorKey BogusCount rand).
Local Abbreviation after_cycles := (after_cycles XorKey BogusCount rand).

Lemma cycle_snd st :
  let st4 := (dead (rename (bogus (obf st).2).2).2).2 in
  (cycle st).2 =
  {| module := module st4;
     strings_obf_count := strings_obf_count st4;
     fake_funcs_inserted := fake_funcs_inserted st4;
     cycles_completed := incr (cycles_completed st4);
     rand_calls := rand_calls st4 |}.
Proof.
  unfold SimpleObfPass.cycle.
  destruct (obf st) as [c1 st1]. cbn [snd].
  destruct (bogus st1) as [c2 st2]. cbn [snd].
  destruct (rename st2) as [c3 st3]. cbn [snd].
  destruct (dead st3) as [c4 st4]. reflexivity.
Qed.

Lemma run_cycles_snd n c c' st :
  (run_cycles XorKey BogusCount rand n c st).2 =
  (run_cycles XorKey BogusCount rand n c' st).2.
Proof.
  revert c c' st. induction n as [|n IH]; intros c c' st; simpl; [done|].
  destruct (cycle st) as [c0 st']. apply IH.
Qed.

Lemma after_cycles_S_l n st :
  after_cycles (S n) st = after_cycles n (cycle st).2.
Proof.
  unfold SimpleObfPass.after_cycles. simpl.
  destruct (cycle st) as [c0 st']. apply run_cycles_snd.
Qed.

Lemma after_cycles_S n st :
  after_cycles (S n) st = (cycle (after_cycles n st)).2.
Proof.
  revert st. induction n as [|n IH]; intros st.
  - rewrite after_cycles_S_l. reflexivity.
  - rewrite after_cycles_S_l, IH, <- after_cycles_S_l. reflexivity.
Qed.

(** *** External globals *)

Lemma obf_module st :
  module (obf st).2 =
  foldl (encryptString XorKey) (module st) (stringGlobals (module st)).
Proof. by rewrite obfuscateStrings_eq. Qed.

Lemma bogus_spec st :
  let st' := (bogus st).2 in
  globals (module st') = globals (module st) ∧
  (∃ news, functions (module st') = functions (module st) ++ news ∧
           length news = Z.to_nat BogusCount) ∧
  (wf (module st) -> wf (module st')) ∧
  strings_obf_count st' = strings_obf_count st ∧
  cycles_completed st' = cycles_completed st ∧
  rand_calls st' = (rand_calls st + Z.to_nat BogusCount)%nat ∧
  fake_funcs_inserted st' =
    Nat.iter (Z.to_nat BogusCount) incr (fake_funcs_inserted st).
Proof.
  destruct (insertBogusFunctions_loop_spec rand (Z.to_nat BogusCount) 0 st)
    as (H1 & (news & H2 & H3 & _) & H4 & H5 & H6 & H7 & H8).
  unfold insertBogusFunctions. cbn [snd]. split_and!; eauto.
Qed.

Lemma rename_module st :
  module (rename st).2 =
  foldl renameGlobal (module st) (toRename (module st)).
Proof. reflexivity. Qed.

(** An external global is in neither selection. *)
Lemma external_not_string g :
  glinkage g = ExternalLinkage -> isStringGlobal g = false.
Proof.
  intros H. unfold isStringGlobal. rewrite H. simpl.
  destruct (initializer g); [|done]. by rewrite andb_false_r.
Qed.

Lemma external_not_renamable g :
  glinkage g = ExternalLinkage -> isRenamable g = false.
Proof. intros H. unfold isRenamable. by rewrite H. Qed.

Lemma obf_external st i g :
  globals (module st) !! i = Some g -> glinkage g = ExternalLinkage ->
  globals (module (obf st).2) !! i = Some g.
Proof.
  intros Hg Hl. rewrite obf_module. apply encryptAll_other; [exact Hg|].
  unfold stringGlobals. rewrite elem_of_collect_0. intros (g' & Hg' & Hs).
  rewrite Hg in Hg'. injection Hg' as <-.
  rewrite external_not_string in Hs; done.
Qed.

Lemma bogus_external st i g :
  globals (module st) !! i = Some g ->
  globals (module (bogus st).2) !! i = Some g.
Proof. intros Hg. destruct (bogus_spec st) as [-> _]. exact Hg. Qed.

Lemma rename_external st i g :
  globals (module st) !! i = Some g -> glinkage g = ExternalLinkage ->
  globals (module (rename st).2) !! i = Some g.
Proof.
  intros Hg Hl. rewrite rename_module. apply renameAll_other; [exact Hg|].
  unfold toRename. rewrite elem_of_collect_0. intros (g' & Hg' & Hs).
  rewrite Hg in Hg'. injection Hg' as <-.
  rewrite external_not_renamable in Hs; done.
Qed.

Lemma dead_external st i g :
  globals (module st) !! i = Some g ->
  globals (module (dead st).2) !! i = Some g.
Proof. intros Hg. by rewrite insertDeadConditionals_globals. Qed.

Lemma cycle_external st i g :
  globals (module st) !! i = Some g -> glinkage g = ExternalLinkage ->
  globals (module (cycle st).2) !! i = Some g.
Proof.
  intros Hg Hl. rewrite cycle_snd. cbn [module].
  apply dead_external, rename_external; [|exact Hl].
  apply bogus_external, obf_external; assumption.
Qed.

Lemma after_cycles_external n st i g :
  globals (module st) !! i = Some g -> glinkage g = ExternalLinkage ->
  globals (module (after_cycles n st)) !! i = Some g.
Proof.
  intros Hg Hl. induction n as [|n IH]; [exact Hg|].
  rewrite after_cycles_S. by apply cycle_external.
Qed.

(** *** Names stay unique *)

Lemma cycle_wf st : wf (module st) -> wf (module (cycle st).2).
Proof.
  intros Hwf. rewrite cycle_snd. cbn [module].
  apply insertDeadConditionals_wf. rewrite rename_module. apply renameAll_wf.
  destruct (bogus_spec (obf st).2) as (_ & _ & H & _). apply H.
  rewrite obf_module. by apply encryptAll_wf.
Qed.

Lemma after_cycles_wf n st :
  wf (module st) -> wf (module (after_cycles n st)).
Proof.
  intros Hwf. induction n as [|n IH]; [exact Hwf|].
  rewrite after_cycles_S. by apply cycle_wf.
Qed.

(** *** Functions and the counters of one cycle *)

Lemma cycle_functions st :
  ∃ news, fname <$> functions (module (cycle st).2) =
            (fname <$> functions (module st)) ++ news ∧
          length news = Z.to_nat BogusCount.
Proof.
  rewrite cycle_snd. cbn [module].
  rewrite insertDeadConditionals_names, rename_module, renameAll_functions.
  destruct (bogus_spec (obf st).2) as (_ & (news & -> & Hlen) & _).
  rewrite obf_module, encryptAll_functions.
  exists (fname <$> news). by rewrite fmap_app, length_fmap.
Qed.

Lemma cycle_fake_funcs st :
  fake_funcs_inserted (cycle st).2 =
  Nat.iter (Z.to_nat BogusCount) incr (fake_funcs_inserted st).
Proof.
  rewrite cycle_snd. cbn [fake_funcs_inserted].
  destruct (insertDeadConditionals_counters (rename (bogus (obf st).2).2).2)
    as (_ & -> & _).
  cbn [renamePrivateGlobals snd withModule fake_funcs_inserted].
  destruct (bogus_spec (obf st).2) as (_ & _ & _ & _ & _ & _ & ->).
  by rewrite obfuscateStrings_eq.
Qed.

Lemma cycle_rand_calls st :
  rand_calls (cycle st).2 = (rand_calls st + Z.to_nat BogusCount)%nat.
Proof.
  rewrite cycle_snd. cbn [rand_calls].
  destruct (insertDeadConditionals_counters (rename (bogus (obf st).2).2).2)
    as (_ & _ & _ & ->).
  cbn [renamePrivateGlobals snd withModule rand_calls].
  destruct (bogus_spec (obf st).2) as (_ & _ & _ & _ & _ & -> & _).
  by rewrite obfuscateStrings_eq.
Qed.

Lemma cycle_strings_count st :
  strings_obf_count (cycle st).2 =
  foldl (fun c _ => incr c) (strings_obf_count st) (stringGlobals (module st)).
Proof.
  rewrite cycle_snd. cbn [strings_obf_count].
  destruct (insertDeadConditionals_counters (rename (bogus (obf st).2).2).2)
    as (-> & _).
  cbn [renamePrivateGlobals snd withModule strings_obf_count].
  destruct (bogus_spec (obf st).2) as (_ & _ & _ & -> & _).
  by rewrite obfuscateStrings_eq.
Qed.

Lemma cycle_cycles_completed st :
  cycles_completed (cycle st).2 = incr (cycles_completed st).
Proof.
  rewrite cycle_snd. cbn [cycles_completed]. f_equal.
  destruct (insertDeadConditionals_counters (rename (bogus (obf st).2).2).2)
    as (_ & _ & -> & _).
  cbn [renamePrivateGlobals snd withModule cycles_completed].
  destruct (bogus_spec (obf st).2) as (_ & _ & _ & _ & -> & _).
  by rewrite obfuscateStrings_eq.
Qed.

Lemma cycle_globals_length st :
  length (globals (module (cycle st).2)) =
  (length (globals (module st)) + length (stringGlobals (module st)))%nat.
Proof.
  rewrite cycle_snd. cbn [module].
  rewrite insertDeadConditionals_globals, rename_module, renameAll_length.
  destruct (bogus_spec (obf st).2) as (-> & _).
  rewrite obf_module. apply encryptAll_length.
  - apply NoDup_collect.
  - apply stringGlobals_all_encryptable.
Qed.

Lemma after_cycles_counts n st :
  in_range (fake_funcs_inserted st) ->
  (∃ news, fname <$> functions (module (after_cycles n st)) =
             (fname <$> functions (module st)) ++ news ∧
           length news = (n * Z.to_nat BogusCount)%nat) ∧
  fake_funcs_inserted (after_cycles n st) =
    bump (n * Z.to_nat BogusCount) (fake_funcs_inserted st) ∧
  rand_calls (after_cycles n st) = (rand_calls st + n * Z.to_nat BogusCount)%nat.
Proof.
  intros Hf. induction n as [|n (( news & Hn & Hlen) & Hfk & Hr)].
  - split_and!.
    + exists []. by rewrite app_nil_r.
    + by rewrite bump_0.
    + rewrite Nat.mul_0_l, Nat.add_0_r. reflexivity.
  - rewrite after_cycles_S. split_and!.
    + destruct (cycle_functions (after_cycles n st)) as (news' & -> & Hlen').
      exists (news ++ news'). rewrite Hn, <- app_assoc. split; [done|].
      rewrite length_app. lia.
    + rewrite cycle_fake_funcs, Hfk.
      rewrite iter_incr by apply bump_in_range.
      rewrite bump_bump. f_equal. lia.
    + rewrite cycle_rand_calls, Hr. lia.
Qed.

Lemma after_cycles_completed n st :
  in_range (cycles_completed st) ->
  cycles_completed (after_cycles n st) = bump n (cycles_completed st).
Proof.
  intros Hc. induction n as [|n IH].
  - by rewrite bump_0.
  - rewrite after_cycles_S, cycle_cycles_completed, IH. apply incr_bump.
Qed.

End Cycles.

(** ** A string global through the cycles *)

Section StringGlobal.
Variables XorKey BogusCount : Z.
Variable rand : nat -> Z.

Lemma rename_lookup st i g :
  globals (module st) !! i = Some g ->
  ∃ n tail, globals (module (renamePrivateGlobals st).2) !! i
              = Some (withName g n) ∧
            n = (gname g +:+ tail)%string.
Proof.
  intros Hg. rewrite rename_module.
  destruct (decide (i ∈ toRename (module st))) as [Hin|Hni].
  - destruct (renameAll_self (toRename (module st)) (module st) i g
                (NoDup_collect _ _ _) Hin Hg) as (n & Hn & Hl).
    destruct (entered_as_prefix _ _ Hn) as (tail & ->).
    eexists _, _. split; [exact Hl|]. by rewrite string_app_assoc.
  - exists (gname g), ""%string. split.
    + rewrite (renameAll_other _ _ _ _ Hg Hni). by destruct g.
    + by rewrite string_app_nil_r.
Qed.

Lemma cycle_string_global st i g elts :
  globals (module st) !! i = Some g ->
  isStringGlobal g = true ->
  initializer g = Some (ConstantDataArray Int8Ty elts) ->
  ∃ g', globals (module (cycle XorKey BogusCount rand st).2) !! i = Some g' ∧
        glinkage g' = glinkage g ∧ isConstant g' = isConstant g ∧
        initializer g' = Some (ConstantDataArray_get (encrypted XorKey elts)) ∧
        ∃ tail, gname g' = (gname g +:+ "_obf" +:+ tail)%string.
Proof.
  intros Hg Hs Hc.
  assert (i ∈ stringGlobals (module st)) as Hin.
  { unfold stringGlobals. apply elem_of_collect_0. eauto. }
  destruct (encryptAll_self XorKey (stringGlobals (module st)) (module st)
              i g Int8Ty elts (NoDup_collect _ _ _) Hin Hg Hc)
    as (n & Hn & Hl).
  rewrite <- obf_module in Hl.
  apply (bogus_external BogusCount rand) in Hl.
  apply rename_lookup in Hl as (n' & tail' & Hl & Hn').
  apply dead_external in Hl.
  rewrite cycle_snd. cbn [module].
  eexists. split; [exact Hl|]. simpl. split_and!; try done.
  destruct (entered_as_prefix _ _ Hn) as (tail & ->).
  exists (tail +:+ tail')%string. simpl in Hn'. rewrite Hn'.
  by rewrite !string_app_assoc.
Qed.

Lemma after_cycles_strings_in_range n st :
  in_range (strings_obf_count st) ->
  in_range (strings_obf_count (after_cycles XorKey BogusCount rand n st)).
Proof.
  intros Hr. induction n as [|n IH]; [exact Hr|].
  rewrite after_cycles_S, cycle_strings_count, foldl_incr by exact IH.
  apply bump_in_range.
Qed.

(** As long as neither the text nor its encryption is all zero bytes, the
    initializer stays a data array, cycle after cycle. *)
Lemma string_global_persists st i g elts :
  globals (module st) !! i = Some g ->
  isStringGlobal g = true ->
  initializer g = Some (ConstantDataArray Int8Ty elts) ->
  Forall is_byte elts ->
  allZeros (getAsCString elts) = false ->
  allZeros (xor_bytes XorKey (getAsCString elts)) = false ->
  ∀ n, ∃ g_n,
    globals (module (after_cycles XorKey BogusCount rand n st)) !! i
      = Some g_n ∧
    isStringGlobal g_n = true ∧
    initializer g_n =
      Some (ConstantDataArray Int8Ty (Nat.iter n (encrypted XorKey) elts)).
Proof.
  intros Hg Hs Hc Hb H1 H2 n. induction n as [|n (g_n & Hgn & Hsn & Hcn)].
  - by exists g.
  - destruct (cycle_string_global _ i g_n _ Hgn Hsn Hcn)
      as (g' & Hg' & Hl & Hk & Hi & _).
    exists g'. rewrite after_cycles_S. split; [exact Hg'|].
    unfold ConstantDataArray_get in Hi.
    rewrite (encrypted_iter_not_zero XorKey n elts Hb H1 H2) in Hi.
    split; [|exact Hi].
    unfold isStringGlobal in *. rewrite Hi, Hl, Hk. rewrite Hcn in Hsn.
    exact Hsn.
Qed.



End StringGlobal.

(** ** The renamer when no name is taken *)

Lemma isRenamable_rename_one g : isRenamable (rename_one g) = false.
Proof.
  unfold rename_one. destruct (isRenamable g) eqn:E; [|exact E].
  unfold isRenamable. simpl. rewrite endswith_app. simpl.
  by rewrite andb_false_r.
Qed.

(** The loop of lines 215-220 with [done_] already visited and [todo] still
    to visit. *)
Lemma renameAll_collect done_ todo fs lu :
  NoDup (gname <$> todo) ->
  (∀ g, g ∈ todo -> isRenamable g = true ->
        (gname g +:+ "_obf")%string
        ∉ (gname <$> done_) ++ (gname <$> todo) ++ (fname <$> fs)) ->
  foldl renameGlobal
        {| globals := done_ ++ todo; functions := fs; LastUnique := lu |}
        (collect isRenamable (length done_) todo) =
  {| globals := done_ ++ (rename_one <$> todo); functions := fs;
     LastUnique := lu |}.
Proof.
  revert done_. induction todo as [|g todo IH]; intros done_ Hnd Hfree.
  - reflexivity.
  - rewrite fmap_cons in Hnd. apply NoDup_cons in Hnd as [Hg Hnd].
    cbn [collect]. rewrite fmap_cons.
    assert (∀ g', g' ∈ todo -> isRenamable g' = true ->
              (gname g' +:+ "_obf")%string
              ∉ (gname <$> done_ ++ [rename_one g]) ++ (gname <$> todo)
                ++ (fname <$> fs)) as Hfree'.
    { intros g' Hin Hr.
      specialize (Hfree g' (list_elem_of_further _ _ _ Hin) Hr).
      rewrite fmap_cons in Hfree.
      rewrite !not_elem_of_app, not_elem_of_cons in Hfree.
      destruct Hfree as (H1 & (H2 & H3) & H4).
      rewrite fmap_app, !not_elem_of_app. split_and!; auto.
      simpl. rewrite list_elem_of_singleton. unfold rename_one.
      destruct (isRenamable g); simpl; [|exact H2].
      intros Heq. apply string_app_inv_tail in Heq.
      apply Hg. rewrite <- Heq. by apply list_elem_of_fmap_2. }
    specialize (IH (done_ ++ [rename_one g]) Hnd Hfree').
    rewrite length_app, Nat.add_1_r, <- !app_assoc in IH. simpl in IH.
    destruct (isRenamable g) eqn:Hr.
    + cbn [foldl]. rewrite <- IH. f_equal.
      unfold renameGlobal, setName. cbn [globals functions LastUnique].
      rewrite list_lookup_middle by reflexivity.
      rewrite delete_middle.
      rewrite createValueName_free.
      * f_equal. rewrite <- (Nat.add_0_r (length done_)) at 1.
        rewrite insert_app_r. simpl. unfold rename_one. by rewrite Hr.
      * specialize (Hfree g (list_elem_of_here _ _) Hr).
        rewrite fmap_cons in Hfree.
        rewrite !not_elem_of_app, not_elem_of_cons in Hfree.
        destruct Hfree as (H1 & (H2 & H3) & H4).
        rewrite fmap_app, !not_elem_of_app. split_and!; auto.
    + rewrite <- IH. unfold rename_one. by rewrite Hr.
Qed.

(** ** The dead branch *)

(** A function whose entry block starts with a branch on [false] to a block
    that jumps back to the entry block never leaves these two blocks. *)
Lemma exec_dead_loop blocks args DeadBB ContBB rest :
  blocks !! 0%nat = Some (CondBr (ConstantInt 1 0) DeadBB ContBB :: rest) ->
  blocks !! ContBB = Some [Br 0%nat] ->
  ∀ fuel env trace,
    exec fuel blocks args env trace
         (CondBr (ConstantInt 1 0) DeadBB ContBB :: rest) = OutOfFuel ∧
    exec fuel blocks args env trace [Br 0%nat] = OutOfFuel.
Proof.
  intros H0 HC. induction fuel as [|fuel IH]; intros env trace; [done|].
  split.
  - cbn [exec eval Z.eqb]. rewrite HC. apply IH.
  - cbn [exec]. rewrite H0. apply IH.
Qed.

Lemma addDeadConditional_loops F EntryBB others args fuel :
  call fuel (addDeadConditional F EntryBB others) args = OutOfFuel.
Proof.
  unfold call, addDeadConditional. cbn [CreateICmpEQ fblocks app Z.eqb].
  eapply exec_dead_loop; [reflexivity|].
  cbn [length]. apply (lookup_second_new others).
Qed.

(** * Further properties *)

(** ** Choosing the function for the dead branch *)

Lemma prefix_app (a b : string) : String.prefix a (a +:+ b) = true.
Proof.
  induction a as [|x a IH]; [by destruct b|].
  rewrite string_app_cons. simpl. destruct (ascii_dec x x); [exact IH|done].
Qed.

Lemma startswith_entered (a b n : string) :
  entered_as (a +:+ b) n -> startswith n a = true.
Proof.
  intros H. destruct (entered_as_prefix _ _ H) as (tail & ->).
  unfold startswith. rewrite string_app_assoc. apply prefix_app.
Qed.

Lemma first_eligible_Some Fs j :
  first_eligible Fs = Some j ->
  ∃ F, Fs !! j = Some F ∧ deadEligible F = true ∧
       ∀ j' F', (j' < j)%nat -> Fs !! j' = Some F' -> deadEligible F' = false.
Proof.
  revert j. induction Fs as [|F Fs IH]; intros j H; simpl in H; [done|].
  destruct (deadEligible F) eqn:E.
  - injection H as <-. exists F. split_and!; [done|done|]. intros j' F' Hlt. lia.
  - destruct (first_eligible Fs) as [j0|]; [|done]. injection H as <-.
    destruct (IH j0 eq_refl) as (F0 & H1 & H2 & H3).
    exists F0. split_and!; [done|done|].
    intros [|j'] F' Hlt HF'; simpl in HF'.
    + by injection HF' as <-.
    + apply (H3 j' F'); [lia|done].
Qed.

Lemma first_eligible_None Fs :
  first_eligible Fs = None ↔ ∀ F, F ∈ Fs -> deadEligible F = false.
Proof.
  induction Fs as [|F Fs IH]; simpl.
  - split; [|done]. intros _ F HF. by apply elem_of_nil in HF.
  - destruct (deadEligible F) eqn:E.
    + split; [done|]. intros H. specialize (H F (list_elem_of_here _ _)). congruence.
    + destruct (first_eligible Fs) as [j|].
      * split; [done|]. intros H. 
        assert (Some j = None) as Hn; [|done].
        apply IH. intros F' HF'. apply H. by apply list_elem_of_further.
      * split; [|done]. intros _ F' HF'.
        apply elem_of_cons in HF' as [->|HF']; [done|]. by apply IH.
Qed.

Lemma dead_loop_spec Fs :
  match first_eligible Fs with
  | None => insertDeadConditionals_loop Fs = None
  | Some j =>
      ∃ F EntryBB others,
        Fs !! j = Some F ∧ fblocks F = EntryBB :: others ∧ EntryBB ≠ [] ∧
        insertDeadConditionals_loop Fs =
          Some (<[j := addDeadConditional F EntryBB others]> Fs)
  end.
Proof.
  induction Fs as [|F Fs IH]; simpl; [done|].
  unfold deadEligible.
  destruct (isDeclaration F || startswith (fname F) "bogus_func_") eqn:E; simpl.
  - destruct (first_eligible Fs) as [j|]; simpl.
    + destruct IH as (F0 & En & ot & H1 & H2 & H3 & ->). by exists F0, En, ot.
    + by rewrite IH.
  - destruct (fblocks F) as [|[|I0 rest] others] eqn:EB.
    + destruct (first_eligible Fs) as [j|]; simpl.
      * destruct IH as (F0 & En & ot & H1 & H2 & H3 & ->). by exists F0, En, ot.
      * by rewrite IH.
    + destruct (first_eligible Fs) as [j|]; simpl.
      * destruct IH as (F0 & En & ot & H1 & H2 & H3 & ->). by exists F0, En, ot.
      * by rewrite IH.
    + exists F, (I0 :: rest), others. split_and!; done.
Qed.

Lemma first_eligible_intro Fs j F :
  Fs !! j = Some F -> deadEligible F = true ->
  (∀ j' F', (j' < j)%nat -> Fs !! j' = Some F' -> deadEligible F' = false) ->
  first_eligible Fs = Some j.
Proof.
  revert j. induction Fs as [|F0 Fs IH]; intros j HF HE Hb; [done|].
  destruct j as [|j]; simpl in HF.
  - injection HF as ->. simpl. by rewrite HE.
  - simpl. rewrite (Hb 0%nat F0 ltac:(lia) eq_refl).
    rewrite (IH j HF HE); [done|].
    intros j' F' Hlt HF'. apply (Hb (S j') F'); [lia|done].
Qed.

Lemma addDeadConditional_facts F EntryBB others :
  fblocks F = EntryBB :: others ->
  fname (addDeadConditional F EntryBB others) = fname F ∧
  flinkage (addDeadConditional F EntryBB others) = flinkage F ∧
  length (fblocks (addDeadConditional F EntryBB others)) =
    (length (fblocks F) + 2)%nat.
Proof.
  intros HF. unfold addDeadConditional. cbn [CreateICmpEQ fname flinkage fblocks].
  split_and!; try done. rewrite HF. simpl. rewrite length_app. simpl. lia.
Qed.


(** ** Decoys *)

Lemma bogus_entry_eq i :
  bogus_entry i =
  [Add 1 (Argument 0) (ConstantInt 32 ((0 + i) mod 2 ^ 32));
   Mul 2 (InstValue 1) (ConstantInt 32 2);
   Add 3 (InstValue 2) (ConstantInt 32 ((1 + i) mod 2 ^ 32));
   Mul 4 (InstValue 3) (ConstantInt 32 2);
   Add 5 (InstValue 4) (ConstantInt 32 ((2 + i) mod 2 ^ 32));
   Mul 6 (InstValue 5) (ConstantInt 32 2);
   Ret (InstValue 6)].
Proof. reflexivity. Qed.

Lemma mod_double_add a c :
  (a mod 2 ^ 32 * 2 + c) mod 2 ^ 32 = (a * 2 + c) mod 2 ^ 32.
Proof.
  rewrite <- Zplus_mod_idemp_l, Zmult_mod_idemp_l, Zplus_mod_idemp_l.
  reflexivity.
Qed.

Lemma mod_double_add_double a c :
  ((a mod 2 ^ 32 * 2 + c) * 2) mod 2 ^ 32 = ((a * 2 + c) * 2) mod 2 ^ 32.
Proof.
  rewrite <- Zmult_mod_idemp_l, mod_double_add, Zmult_mod_idemp_l.
  reflexivity.
Qed.

Lemma bogus_entry_value (i x : Z) (args : list Z) (F : Function) (fuel : nat) :
  fblocks F = [bogus_entry i] ->
  call (7 + fuel) F (x :: args) = Returned ((8 * x + 14 * i + 8) mod 2 ^ 32) [].
Proof.
  intros HF. unfold call. rewrite HF, bogus_entry_eq.
  cbn [Nat.add exec eval env_get Nat.eqb nth]. unfold wrap32.
  f_equal.
  rewrite !Zplus_mod_idemp_r.
  repeat first [ rewrite Zplus_mod_idemp_l | rewrite Zmult_mod_idemp_l
               | rewrite mod_double_add | rewrite mod_double_add_double ].
  f_equal. ring.
Qed.

Section Bogus.
Variable BogusCount : Z.
Variable rand : nat -> Z.

Lemma insertBogus_loop_new n i st k F :
  functions (module (insertBogusFunctions_loop rand n i st))
    !! (length (functions (module st)) + k)%nat = Some F ->
  (k < n)%nat ∧ flinkage F = PrivateLinkage ∧
  fblocks F = [bogus_entry (i + Z.of_nat k)] ∧
  entered_as (bogus_name (i + Z.of_nat k) (rand (rand_calls st + k)%nat))
    (fname F).
Proof.
  revert i st k. induction n as [|n IH]; intros i st k H; simpl in H.
  - apply lookup_lt_Some in H. lia.
  - set (M' := createFunction (module st) PrivateLinkage
                 (bogus_name i (rand (rand_calls st))) [bogus_entry i]) in *.
    set (st1 := {| module := M'; strings_obf_count := strings_obf_count st;
                   fake_funcs_inserted := incr (fake_funcs_inserted st);
                   cycles_completed := cycles_completed st;
                   rand_calls := S (rand_calls st) |}) in *.
    assert (functions M' = functions (module st) ++
              [{| fname := (createValueName (symbols (module st))
                              (LastUnique (module st))
                              (bogus_name i (rand (rand_calls st)))).1;
                  flinkage := PrivateLinkage; fblocks := [bogus_entry i] |}])
      as HM' by apply createFunction_functions.
    destruct k as [|k].
    + destruct (insertBogusFunctions_loop_spec rand n (i + 1) st1)
        as (_ & (news & Hf & _ & _) & _).
      rewrite Hf in H. cbn [module st1] in H. rewrite HM' in H.
      rewrite Nat.add_0_r, <- app_assoc in H.
      rewrite lookup_app_r in H by lia. rewrite Nat.sub_diag in H.
      simpl in H. injection H as <-. simpl.
      rewrite Z.add_0_r, Nat.add_0_r.
      split_and!; [lia|done|done|apply createValueName_entered].
    + specialize (IH (i + 1) st1 k). cbn [module st1 rand_calls] in IH.
      rewrite HM', length_app in IH. simpl in IH.
      replace (length (functions (module st)) + 1 + k)%nat
        with (length (functions (module st)) + S k)%nat in IH by lia.
      destruct (IH H) as (H1 & H2 & H3 & H4).
      replace (i + 1 + Z.of_nat k) with (i + Z.of_nat (S k)) in * by lia.
      replace (S (rand_calls st + k))%nat with (rand_calls st + S k)%nat in * by lia.
      split_and!; [lia|done|done|done].
Qed.

End Bogus.

(** ** Functions through the cycles *)

Lemma deadEligible_addDeadConditional F EntryBB others :
  fblocks F = EntryBB :: others -> deadEligible F = true ->
  deadEligible (addDeadConditional F EntryBB others) = true.
Proof.
  intros HF HE. unfold deadEligible in *. 
  apply andb_prop in HE as [H1 _]. apply negb_true_iff, orb_false_elim in H1 as [_ H1].
  unfold addDeadConditional. cbn [CreateICmpEQ fname fblocks app isDeclaration].
  rewrite H1. reflexivity.
Qed.

Lemma first_eligible_insert Fs j F' :
  first_eligible Fs = Some j -> deadEligible F' = true ->
  first_eligible (<[j := F']> Fs) = Some j.
Proof.
  revert j. induction Fs as [|F Fs IH]; intros j H HF'; simpl in H; [done|].
  destruct (deadEligible F) eqn:E.
  - injection H as <-. simpl. by rewrite HF'.
  - destruct (first_eligible Fs) as [j0|] eqn:E0; [|done]. injection H as <-.
    simpl. rewrite E. by rewrite (IH j0 eq_refl HF').
Qed.

Lemma first_eligible_app Fs news :
  (∀ F, F ∈ news -> deadEligible F = false) ->
  first_eligible (Fs ++ news) = first_eligible Fs.
Proof.
  intros Hn. induction Fs as [|F Fs IH]; simpl.
  - by apply first_eligible_None.
  - destruct (deadEligible F); [done|]. by rewrite IH.
Qed.

Lemma first_eligible_lookup Fs j F :
  first_eligible Fs = Some j -> Fs !! j = Some F -> deadEligible F = true.
Proof.
  intros H HF. destruct (first_eligible_Some Fs j H) as (F0 & H0 & HE & _).
  congruence.
Qed.

Section Dead.
Variables XorKey BogusCount : Z.
Variable rand : nat -> Z.

Lemma dead_functions_None st :
  first_eligible (functions (module st)) = None ->
  insertDeadConditionals st = (false, st).
Proof.
  intros H. pose proof (dead_loop_spec (functions (module st))) as Hs.
  rewrite H in Hs. unfold insertDeadConditionals. by rewrite Hs.
Qed.

Lemma dead_functions_Some st j :
  first_eligible (functions (module st)) = Some j ->
  ∃ F EntryBB others,
    functions (module st) !! j = Some F ∧ fblocks F = EntryBB :: others ∧
    EntryBB ≠ [] ∧
    insertDeadConditionals st =
      (true, withModule st
               {| globals := globals (module st);
                  functions := <[j := addDeadConditional F EntryBB others]>
                                 (functions (module st));
                  LastUnique := LastUnique (module st) |}).
Proof.
  intros H. pose proof (dead_loop_spec (functions (module st))) as Hs.
  rewrite H in Hs. destruct Hs as (F & En & ot & H1 & H2 & H3 & H4).
  exists F, En, ot. split_and!; try done.
  unfold insertDeadConditionals. by rewrite H4.
Qed.

Lemma dead_functions_other st j F :
  functions (module st) !! j = Some F ->
  first_eligible (functions (module st)) ≠ Some j ->
  functions (module (insertDeadConditionals st).2) !! j = Some F.
Proof.
  intros HF Hne.
  destruct (first_eligible (functions (module st))) as [j0|] eqn:E.
  - destruct (dead_functions_Some st j0 E) as (F0 & En & ot & _ & _ & _ & ->).
    simpl. rewrite list_lookup_insert_ne by congruence. exact HF.
  - by rewrite dead_functions_None.
Qed.

Lemma dead_first_eligible st :
  first_eligible (functions (module (insertDeadConditionals st).2)) =
  first_eligible (functions (module st)).
Proof.
  destruct (first_eligible (functions (module st))) as [j0|] eqn:E.
  - destruct (dead_functions_Some st j0 E) as (F0 & En & ot & H1 & H2 & _ & ->).
    simpl. apply first_eligible_insert; [exact E|].
    apply deadEligible_addDeadConditional; [exact H2|].
    by eapply first_eligible_lookup.
  - by rewrite dead_functions_None.
Qed.

Lemma bogus_functions_app st :
  ∃ news, functions (module (insertBogusFunctions BogusCount rand st).2) =
            functions (module st) ++ news ∧
          ∀ F, F ∈ news -> deadEligible F = false.
Proof.
  destruct (insertBogusFunctions_loop_spec rand (Z.to_nat BogusCount) 0 st)
    as (_ & (news & Hf & _ & Hn) & _).
  exists news. split; [exact Hf|].
  intros F (k & Hk)%list_elem_of_lookup.
  destruct (Hn k F Hk) as [_ He].
  unfold deadEligible.
  rewrite (startswith_entered "bogus_func_" _ _ He).
  by rewrite orb_true_r.
Qed.

Lemma cycle_functions_before_dead st :
  ∃ news,
    functions (module (renamePrivateGlobals
                         (insertBogusFunctions BogusCount rand
                            (obfuscateStrings XorKey st).2).2).2) =
      functions (module st) ++ news ∧
    ∀ F, F ∈ news -> deadEligible F = false.
Proof.
  destruct (bogus_functions_app (obfuscateStrings XorKey st).2)
    as (news & Hf & Hn).
  rewrite obf_module, encryptAll_functions in Hf.
  exists news. split; [|exact Hn].
  by rewrite rename_module, renameAll_functions.
Qed.

Lemma cycle_functions_shape st :
  let Fs := functions (module st) in
  let Fs' := functions (module (cycle XorKey BogusCount rand st).2) in
  first_eligible Fs' = first_eligible Fs ∧
  ∀ j F, Fs !! j = Some F -> first_eligible Fs ≠ Some j -> Fs' !! j = Some F.
Proof.
  intros Fs Fs'. unfold Fs'. rewrite cycle_snd. cbn [module].
  destruct (cycle_functions_before_dead st) as (news & H1 & Hn).
  set (st3 := (renamePrivateGlobals _).2) in *.
  assert (first_eligible (functions (module st3)) = first_eligible Fs) as H2.
  { rewrite H1. by apply first_eligible_app. }
  split.
  - by rewrite dead_first_eligible.
  - intros j F HF Hne. apply dead_functions_other.
    + rewrite H1. by apply lookup_app_l_Some.
    + by rewrite H2.
Qed.

Lemma cycle_functions_chosen st j F :
  first_eligible (functions (module st)) = Some j ->
  functions (module st) !! j = Some F ->
  ∃ EntryBB others,
    fblocks F = EntryBB :: others ∧
    functions (module (cycle XorKey BogusCount rand st).2) !! j =
      Some (addDeadConditional F EntryBB others).
Proof.
  intros HE HF. rewrite cycle_snd. cbn [module].
  destruct (cycle_functions_before_dead st) as (news & H1 & Hn).
  set (st3 := (renamePrivateGlobals _).2) in *.
  assert (first_eligible (functions (module st3)) = Some j) as H2.
  { rewrite H1, first_eligible_app by done. exact HE. }
  destruct (dead_functions_Some st3 j H2) as (F0 & En & ot & H3 & H4 & _ & ->).
  rewrite H1, (lookup_app_l_Some _ _ _ _ HF) in H3. injection H3 as <-.
  exists En, ot. split; [exact H4|]. cbn [snd withModule module functions].
  apply list_lookup_insert_eq. rewrite H1, length_app.
  apply lookup_lt_Some in HF. lia.
Qed.

Lemma after_cycles_functions_shape n st :
  let Fs := functions (module st) in
  let Fs' := functions (module (after_cycles XorKey BogusCount rand n st)) in
  first_eligible Fs' = first_eligible Fs ∧
  ∀ j F, Fs !! j = Some F -> first_eligible Fs ≠ Some j -> Fs' !! j = Some F.
Proof.
  induction n as [|n [IH1 IH2]]; [done|].
  rewrite after_cycles_S.
  destruct (cycle_functions_shape (after_cycles XorKey BogusCount rand n st))
    as [H1 H2].
  split; [by rewrite H1|].
  intros j F HF Hne. apply H2; [by apply IH2|]. by rewrite IH1.
Qed.

End Dead.

Section Chosen.
Variables XorKey BogusCount : Z.
Variable rand : nat -> Z.


Lemma after_cycles_chosen n st j F :
  first_eligible (functions (module st)) = Some j ->
  functions (module st) !! j = Some F ->
  ∃ F_n,
    functions (module (after_cycles XorKey BogusCount rand n st)) !! j
      = Some F_n ∧
    fname F_n = fname F ∧ flinkage F_n = flinkage F ∧
    length (fblocks F_n) = (length (fblocks F) + 2 * n)%nat ∧
    ((1 <= n)%nat -> ∀ fuel args, call fuel F_n args = OutOfFuel).
Proof.
  intros HE HF. induction n as [|n (F_n & H1 & H2 & H3 & H4 & _)].
  - exists F. split_and!; try done; lia.
  - rewrite after_cycles_S.
    destruct (after_cycles_functions_shape XorKey BogusCount rand n st)
      as [Hfe _].
    rewrite HE in Hfe.
    destruct (cycle_functions_chosen XorKey BogusCount rand _ j F_n Hfe H1)
      as (En & ot & Hb & Hl).
    destruct (addDeadConditional_facts F_n En ot Hb) as (Ha & Hb' & Hc).
    eexists. split; [exact Hl|]. split_and!.
    + congruence.
    + congruence.
    + rewrite Hc, H4. lia.
    + intros _ fuel args. apply addDeadConditional_loops.
Qed.

End Chosen.

(** ** Globals through the cycles *)

Lemma same_object_refl g : same_object g g.
Proof. split_and!; try done. exists ""%string. by rewrite string_app_nil_r. Qed.

Lemma same_object_trans g1 g2 g3 :
  same_object g1 g2 -> same_object g2 g3 -> same_object g1 g3.
Proof.
  intros (H1 & H2 & t1 & H3) (H4 & H5 & t2 & H6). split_and!; try congruence.
  exists (t1 +:+ t2)%string. by rewrite H6, H3, string_app_assoc.
Qed.

Lemma isStringGlobal_same g g' :
  glinkage g' = glinkage g -> isConstant g' = isConstant g ->
  initializer g' = initializer g -> isStringGlobal g' = isStringGlobal g.
Proof. intros H1 H2 H3. unfold isStringGlobal. by rewrite H1, H2, H3. Qed.

Section Globals.
Variables XorKey BogusCount : Z.
Variable rand : nat -> Z.

Lemma stringGlobals_elem M i g :
  globals M !! i = Some g ->
  i ∈ stringGlobals M ↔ isStringGlobal g = true.
Proof.
  intros Hg. unfold stringGlobals. rewrite elem_of_collect_0. split.
  - intros (g' & Hg' & Hs). congruence.
  - intros Hs. eauto.
Qed.

Lemma toRename_elem M i g :
  globals M !! i = Some g ->
  i ∈ toRename M ↔ isRenamable g = true.
Proof.
  intros Hg. unfold toRename. rewrite elem_of_collect_0. split.
  - intros (g' & Hg' & Hs). congruence.
  - intros Hs. eauto.
Qed.

Lemma obf_global_any st i g :
  globals (module st) !! i = Some g ->
  ∃ g', globals (module (obfuscateStrings XorKey st).2) !! i = Some g' ∧
        same_object g g' ∧
        (isStringGlobal g = false -> g' = g) ∧
        (∀ elts, isStringGlobal g = true ->
                 initializer g = Some (ConstantDataArray Int8Ty elts) ->
                 initializer g' =
                   Some (ConstantDataArray_get (encrypted XorKey elts))).
Proof.
  intros Hg. rewrite obf_module.
  destruct (isStringGlobal g) eqn:Hs.
  - assert (i ∈ stringGlobals (module st)) as Hin
      by by apply (stringGlobals_elem _ _ g).
    destruct (stringGlobals_encryptable _ _ Hin) as (g0 & elts & Hg0 & _ & Hc).
    rewrite Hg in Hg0. injection Hg0 as <-.
    destruct (encryptAll_self XorKey _ _ i g Int8Ty elts (NoDup_collect _ _ _)
                Hin Hg Hc) as (n & Hn & Hl).
    eexists. split; [exact Hl|]. split_and!.
    + split_and!; try done. simpl.
      destruct (entered_as_prefix _ _ Hn) as (tail & ->).
      eexists. by rewrite string_app_assoc.
    + done.
    + intros elts' _ Hc'. rewrite Hc in Hc'. by injection Hc' as <-.
  - exists g. split_and!.
    + apply encryptAll_other; [exact Hg|].
      rewrite (stringGlobals_elem _ _ g Hg). congruence.
    + apply same_object_refl.
    + done.
    + done.
Qed.

Lemma rename_global_any st i g :
  globals (module st) !! i = Some g ->
  ∃ n, globals (module (renamePrivateGlobals st).2) !! i = Some (withName g n) ∧
       (isRenamable g = false -> n = gname g) ∧
       (isRenamable g = true -> entered_as (gname g +:+ "_obf") n).
Proof.
  intros Hg. rewrite rename_module.
  destruct (isRenamable g) eqn:Hr.
  - assert (i ∈ toRename (module st)) as Hin by by apply (toRename_elem _ _ g).
    destruct (renameAll_self _ _ i g (NoDup_collect _ _ _) Hin Hg)
      as (n & Hn & Hl).
    exists n. split_and!; done.
  - exists (gname g). split_and!; try done.
    rewrite (renameAll_other _ _ _ g Hg).
    + by destruct g.
    + rewrite (toRename_elem _ _ g Hg). congruence.
Qed.

Lemma cycle_global_any st i g :
  globals (module st) !! i = Some g ->
  ∃ g', globals (module (cycle XorKey BogusCount rand st).2) !! i = Some g' ∧
        same_object g g' ∧
        (isStringGlobal g = false -> initializer g' = initializer g) ∧
        (isStringGlobal g = false -> glinkage g ≠ PrivateLinkage -> g' = g).
Proof.
  intros Hg.
  destruct (obf_global_any st i g Hg) as (g1 & H1 & Hs1 & Hn1 & _).
  apply (bogus_external BogusCount rand) in H1.
  destruct (rename_global_any _ i g1 H1) as (n & H2 & Hr1 & Hr2).
  apply dead_external in H2.
  rewrite cycle_snd. cbn [module].
  eexists. split; [exact H2|]. split_and!.
  - eapply same_object_trans; [exact Hs1|].
    split_and!; try done. simpl.
    destruct (isRenamable g1) eqn:Hr.
    + destruct (entered_as_prefix _ _ (Hr2 eq_refl)) as (tail & ->).
      eexists. by rewrite string_app_assoc.
    + rewrite (Hr1 eq_refl). exists ""%string. by rewrite string_app_nil_r.
  - intros Hs. simpl. by rewrite (Hn1 Hs).
  - intros Hs Hp. rewrite (Hn1 Hs) in *.
    assert (isRenamable g = false) as Hr.
    { unfold isRenamable. by destruct (glinkage g). }
    rewrite (Hr1 Hr). by destruct g.
Qed.

Lemma after_cycles_global_any n st i g :
  globals (module st) !! i = Some g ->
  ∃ g', globals (module (after_cycles XorKey BogusCount rand n st)) !! i
          = Some g' ∧
        same_object g g' ∧
        (isStringGlobal g = false -> initializer g' = initializer g) ∧
        (isStringGlobal g = false -> glinkage g ≠ PrivateLinkage -> g' = g).
Proof.
  intros Hg. induction n as [|n (g1 & H1 & Hs1 & Hi1 & He1)].
  - exists g. split_and!; try done. apply same_object_refl.
  - destruct (cycle_global_any _ i g1 H1) as (g2 & H2 & Hs2 & Hi2 & He2).
    rewrite after_cycles_S. exists g2. split; [exact H2|]. split_and!.
    + by eapply same_object_trans.
    + intros Hs. rewrite <- (Hi1 Hs). apply Hi2.
      destruct Hs1 as (Hl & Hc & _).
      by rewrite (isStringGlobal_same g g1 Hl Hc (Hi1 Hs)).
    + intros Hs Hp. rewrite <- (He1 Hs Hp). apply He2.
      * by rewrite (He1 Hs Hp).
      * by rewrite (He1 Hs Hp).
Qed.

(** No string global now, none ever. *)
Lemma cycle_no_strings st :
  stringGlobals (module st) = [] ->
  stringGlobals (module (cycle XorKey BogusCount rand st).2) = [] ∧
  length (globals (module (cycle XorKey BogusCount rand st).2)) =
    length (globals (module st)) ∧
  strings_obf_count (cycle XorKey BogusCount rand st).2 = strings_obf_count st.
Proof.
  intros Hn. split_and!.
  - unfold stringGlobals. apply collect_nil_iff.
    intros x (i & Hx)%list_elem_of_lookup.
    assert (i < length (globals (module st)))%nat as Hi.
    { apply lookup_lt_Some in Hx. rewrite cycle_globals_length, Hn in Hx.
      simpl in Hx. lia. }
    apply lookup_lt_is_Some_2 in Hi as [g Hg].
    assert (isStringGlobal g = false) as Hs.
    { unfold stringGlobals in Hn.
      apply (proj1 (collect_nil_iff _ _ _) Hn).
      by eapply list_elem_of_lookup_2. }
    destruct (cycle_global_any st i g Hg) as (g' & Hg' & (Hl & Hc & _) & Hi' & _).
    rewrite Hx in Hg'. injection Hg' as <-.
    by rewrite (isStringGlobal_same g x Hl Hc (Hi' Hs)).
  - rewrite cycle_globals_length, Hn. simpl. lia.
  - by rewrite cycle_strings_count, Hn.
Qed.

Lemma after_cycles_no_strings n st :
  stringGlobals (module st) = [] ->
  stringGlobals (module (after_cycles XorKey BogusCount rand n st)) = [] ∧
  length (globals (module (after_cycles XorKey BogusCount rand n st))) =
    length (globals (module st)) ∧
  strings_obf_count (after_cycles XorKey BogusCount rand n st)
    = strings_obf_count st.
Proof.
  intros Hn. induction n as [|n (H1 & H2 & H3)]; [done|].
  rewrite after_cycles_S.
  destruct (cycle_no_strings _ H1) as (H4 & H5 & H6).
  split_and!; congruence.
Qed.

End Globals.

(** ** Payloads, flags and idle runs *)

Section More.
Variables XorKey BogusCount Cycles : Z.
Variable rand : nat -> Z.

Lemma encrypted_lookup elts j b :
  (S j < length elts)%nat -> elts !! j = Some b ->
  encrypted XorKey elts !! j = Some (xor_byte XorKey b).
Proof.
  intros Hj Hb. unfold encrypted, xor_bytes, getAsCString.
  assert (elts ≠ []) as Hne by (intros ->; simpl in Hj; lia).
  destruct (exists_last Hne) as (l & a & ->).
  rewrite removelast_last. rewrite length_app in Hj. simpl in Hj.
  rewrite lookup_app_l by (rewrite length_fmap; lia).
  rewrite list_lookup_fmap.
  rewrite lookup_app_l in Hb by lia. by rewrite Hb.
Qed.

Lemma iter_encrypted_even m elts :
  last elts = Some 0 -> Forall is_byte elts ->
  Nat.iter (2 * m) (encrypted XorKey) elts = elts.
Proof.
  intros Hc Hb. induction m as [|m IH]; [done|].
  replace (2 * S m)%nat with (S (S (2 * m))) by lia.
  cbn [Nat.iter nat_rect]. 
  change (nat_rect _ elts (fun _ => encrypted XorKey) (2 * m)%nat)
    with (Nat.iter (2 * m) (encrypted XorKey) elts).
  rewrite IH. by apply encrypted_twice.
Qed.

Lemma cycle_fst st :
  (cycle XorKey BogusCount rand st).1 =
  (obfuscateStrings XorKey st).1
  || (insertBogusFunctions BogusCount rand (obfuscateStrings XorKey st).2).1
  || (renamePrivateGlobals
        (insertBogusFunctions BogusCount rand (obfuscateStrings XorKey st).2).2).1
  || (insertDeadConditionals
        (renamePrivateGlobals
           (insertBogusFunctions BogusCount rand
              (obfuscateStrings XorKey st).2).2).2).1.
Proof.
  unfold cycle.
  destruct (obfuscateStrings XorKey st) as [c1 st1]. cbn [fst snd].
  destruct (insertBogusFunctions BogusCount rand st1) as [c2 st2]. cbn [fst snd].
  destruct (renamePrivateGlobals st2) as [c3 st3]. cbn [fst snd].
  destruct (insertDeadConditionals st3) as [c4 st4]. reflexivity.
Qed.

Lemma run_cycles_true n st :
  (run_cycles XorKey BogusCount rand n true st).1 = true.
Proof.
  revert st. induction n as [|n IH]; intros st; simpl; [done|].
  destruct (cycle XorKey BogusCount rand st) as [c st']. apply IH.
Qed.

Lemma run_cycles_S_fst n st :
  (cycle XorKey BogusCount rand st).1 = true ->
  (run_cycles XorKey BogusCount rand (S n) false st).1 = true.
Proof.
  intros H. simpl. destruct (cycle XorKey BogusCount rand st) as [c st'].
  simpl in H. subst c. apply run_cycles_true.
Qed.

(** A cycle that selects nothing only counts itself. *)
Lemma cycle_idle st :
  BogusCount <= 0 ->
  stringGlobals (module st) = [] ->
  toRename (module st) = [] ->
  first_eligible (functions (module st)) = None ->
  cycle XorKey BogusCount rand st =
    (false,
     {| module := module st;
        strings_obf_count := strings_obf_count st;
        fake_funcs_inserted := fake_funcs_inserted st;
        cycles_completed := incr (cycles_completed st);
        rand_calls := rand_calls st |}).
Proof.
  intros HB Hs Hr Hd. unfold cycle.
  assert (obfuscateStrings XorKey st = (false, st)) as ->.
  { rewrite obfuscateStrings_eq, Hs. simpl. by destruct st. }
  assert (insertBogusFunctions BogusCount rand st = (false, st)) as ->.
  { unfold insertBogusFunctions. replace (Z.to_nat BogusCount) with 0%nat by lia.
    simpl. f_equal. by apply Z.ltb_ge. }
  assert (renamePrivateGlobals st = (false, st)) as ->.
  { rewrite renamePrivateGlobals_eq, Hr. simpl. by destruct st. }
  rewrite (dead_functions_None st Hd). reflexivity.
Qed.

Lemma run_cycles_idle n st :
  BogusCount <= 0 ->
  stringGlobals (module st) = [] ->
  toRename (module st) = [] ->
  first_eligible (functions (module st)) = None ->
  run_cycles XorKey BogusCount rand n false st =
    (false,
     {| module := module st;
        strings_obf_count := strings_obf_count st;
        fake_funcs_inserted := fake_funcs_inserted st;
        cycles_completed := Nat.iter n incr (cycles_completed st);
        rand_calls := rand_calls st |}).
Proof.
  intros HB. revert st. induction n as [|n IH]; intros st Hs Hr Hd.
  - simpl. by destruct st.
  - cbn [run_cycles]. rewrite (cycle_idle st HB Hs Hr Hd). cbn [orb].
    rewrite IH by done. cbn [module strings_obf_count fake_funcs_inserted
                               cycles_completed rand_calls].
    f_equal. f_equal. clear. 
    induction n as [|n IH]; simpl; [done|]. by rewrite IH.
Qed.

End More.

(** ** The demonstration program *)

Import Example.

Lemma fib_SS n : fib (S (S n)) = fib (S n) + fib n.
Proof.
  unfold fib.
  change (Nat.iter (S (S n)) fib_step (0, 1))
    with (fib_step (fib_step (Nat.iter n fib_step (0, 1)))).
  change (Nat.iter (S n) fib_step (0, 1))
    with (fib_step (Nat.iter n fib_step (0, 1))).
  destruct (Nat.iter n fib_step (0, 1)) as [a b]. unfold fib_step. simpl. lia.
Qed.

Lemma fib_mono n : 0 <= fib n <= fib (S n).
Proof.
  induction n as [|n IH].
  - vm_compute. split; discriminate.
  - rewrite fib_SS. lia.
Qed.

Lemma fib_le n m : (n <= m)%nat -> fib n <= fib m.
Proof.
  induction 1 as [|m Hle IH]; [lia|]. pose proof (fib_mono m). lia.
Qed.

Lemma calculate_fibonacci_fib m :
  ∀ fuel, (m <= 46)%nat -> (m < fuel)%nat ->
          calculate_fibonacci fuel (Z.of_nat m) = Int (fib m).
Proof.
  induction m as [m IH] using lt_wf_ind. intros fuel Hm Hf.
  destruct fuel as [|fuel]; [lia|]. cbn [calculate_fibonacci].
  destruct m as [|[|m]].
  - reflexivity.
  - reflexivity.
  - replace (Z.of_nat (S (S m)) <=? 1) with false by (symmetry; apply Z.leb_gt; lia).
    replace (Z.of_nat (S (S m)) - 1) with (Z.of_nat (S m)) by lia.
    replace (Z.of_nat (S (S m)) - 2) with (Z.of_nat m) by lia.
    rewrite (IH (S m)) by lia. rewrite (IH m) by lia.
    rewrite <- fib_SS.
    pose proof (fib_le (S (S m)) 46 Hm) as Hb.
    pose proof (fib_mono (S (S m))) as Hp.
    assert (fib 46 = 1836311903) as H46 by (vm_compute; reflexivity).
    replace (INT_MIN <=? fib (S (S m))) with true
      by (symmetry; apply Z.leb_le; unfold INT_MIN; lia).
    replace (fib (S (S m)) <=? INT_MAX) with true
      by (symmetry; apply Z.leb_le; unfold INT_MAX; lia).
    reflexivity.
Qed.

(** ** Printed numbers *)

Import Telemetry.

Lemma numeral_app a b : numeral (a +:+ b) = numeral a && numeral b.
Proof.
  induction a as [|c a IH]; [done|].
  rewrite string_app_cons. simpl. by rewrite IH, andb_assoc.
Qed.

Lemma pretty_N_char_numeral x : numeral_char (pretty_N_char x) = true.
Proof. unfold pretty_N_char. by repeat case_match. Qed.

Lemma pretty_N_go_numeral x s :
  ∃ d, pretty_N_go x s = (d +:+ s)%string ∧ numeral d = true.
Proof.
  revert s. induction (N.lt_wf_0 x) as [x _ IH]; intros s.
  assert (x = 0 ∨ 0 < x)%N as [->|Hx] by lia.
  - exists ""%string. by rewrite pretty_N_go_0.
  - rewrite pretty_N_go_step by done.
    destruct (IH (x `div` 10)%N (N.div_lt x 10 Hx eq_refl)
                 (String (pretty_N_char (x `mod` 10)) s)) as (d & -> & Hd).
    exists (d +:+ String (pretty_N_char (x `mod` 10)) "")%string. split.
    + by rewrite string_app_assoc.
    + rewrite numeral_app, Hd. simpl. by rewrite pretty_N_char_numeral.
Qed.

Lemma pretty_N_numeral (x : N) : numeral (pretty x) = true.
Proof.
  unfold pretty, pretty_N. case_decide; [done|].
  destruct (pretty_N_go_numeral x "") as (d & -> & Hd).
  by rewrite string_app_nil_r.
Qed.

Lemma pretty_Z_numeral (z : Z) : numeral (pretty z) = true.
Proof.
  destruct z as [|p|p]; [done| |].
  - apply (pretty_N_numeral (Npos p)).
  - change (pretty (Z.neg p)) with ("-" +:+ pretty (Npos p))%string.
    rewrite numeral_app. by rewrite (pretty_N_numeral (Npos p)).
Qed.

(** Two numerals followed by something that is not part of a numeral. *)
Lemma numeral_split a b c c' r r' :
  numeral a = true -> numeral b = true ->
  numeral_char c = false -> numeral_char c' = false ->
  (a +:+ String c r)%string = (b +:+ String c' r')%string ->
  a = b ∧ c = c' ∧ r = r'.
Proof.
  revert b. induction a as [|x a IH]; intros [|y b] Ha Hb Hc Hc' H.
  - simpl in H. by injection H as -> ->.
  - rewrite string_app_cons in H. simpl in H. injection H as -> _.
    simpl in Hb. apply andb_prop in Hb as [Hb _]. congruence.
  - rewrite string_app_cons in H. simpl in H. injection H as -> _.
    simpl in Ha. apply andb_prop in Ha as [Ha _]. congruence.
  - rewrite !string_app_cons in H. injection H as -> H.
    simpl in Ha, Hb. apply andb_prop in Ha as [_ Ha].
    apply andb_prop in Hb as [_ Hb].
    destruct (IH b Ha Hb Hc Hc' H) as (-> & -> & ->). done.
Qed.

Lemma pretty_then (x y : Z) c c' r r' :
  numeral_char c = false -> numeral_char c' = false ->
  (pretty x +:+ String c r)%string = (pretty y +:+ String c' r')%string ->
  x = y ∧ r = r'.
Proof.
  intros Hc Hc' H.
  destruct (numeral_split _ _ _ _ _ _ (pretty_Z_numeral x) (pretty_Z_numeral y)
              Hc Hc' H) as (Hp & _ & Hr).
  split; [by apply (inj pretty)|exact Hr].
Qed.

(** ** Added functions, and runs without the synthesizer *)

Lemma entered_not_eligible (b : string) (F : Function) :
  entered_as ("bogus_func_" +:+ b) (fname F) -> deadEligible F = false.
Proof.
  intros He. unfold deadEligible.
  rewrite (startswith_entered "bogus_func_" _ _ He). by rewrite orb_true_r.
Qed.

Lemma bogus_nothing (BogusCount : Z) (rand : nat -> Z) (st : State) :
  BogusCount <= 0 -> insertBogusFunctions BogusCount rand st = (false, st).
Proof.
  intros H. unfold insertBogusFunctions.
  replace (Z.to_nat BogusCount) with 0%nat by lia.
  simpl. f_equal. by apply Z.ltb_ge.
Qed.

Lemma cycle_without_bogus (XorKey BogusCount : Z) (rand : nat -> Z)
    (st : State) :
  BogusCount <= 0 ->
  cycle XorKey BogusCount rand st =
    (let r1 := obfuscateStrings XorKey st in
     let r3 := renamePrivateGlobals r1.2 in
     let r4 := insertDeadConditionals r3.2 in
     (r1.1 || r3.1 || r4.1,
      {| module := module r4.2;
         strings_obf_count := strings_obf_count r4.2;
         fake_funcs_inserted := fake_funcs_inserted r4.2;
         cycles_completed := incr (cycles_completed r4.2);
         rand_calls := rand_calls r4.2 |})).
Proof.
  intros H. unfold cycle.
  destruct (obfuscateStrings XorKey st) as [c1 st1].
  rewrite (bogus_nothing BogusCount rand st1 H). cbn [fst snd].
  destruct (renamePrivateGlobals st1) as [c3 st3]. cbn [fst snd].
  destruct (insertDeadConditionals st3) as [c4 st4]. cbn [fst snd].
  by rewrite orb_false_r.
Qed.

Lemma run_cycles_without_bogus (XorKey BogusCount : Z) (rand : nat -> Z)
    (n : nat) (c : bool) (st : State) :
  BogusCount <= 0 ->
  run_cycles XorKey BogusCount rand n c st = run_cycles XorKey 0 rand n c st.
Proof.
  intros H. revert c st. induction n as [|n IH]; intros c st; [done|].
  cbn [run_cycles].
  rewrite (cycle_without_bogus XorKey BogusCount rand st H).
  rewrite (cycle_without_bogus XorKey 0 rand st) by lia.
  cbv zeta. apply IH.
Qed.

Section Added.
Variables XorKey BogusCount : Z.
Variable rand : nat -> Z.

Lemma cycle_new_function st k :
  (k < Z.to_nat BogusCount)%nat ->
  ∃ F,
    functions (module (cycle XorKey BogusCount rand st).2)
      !! (length (functions (module st)) + k)%nat = Some F ∧
    flinkage F = PrivateLinkage ∧
    fblocks F = [bogus_entry (Z.of_nat k)] ∧
    entered_as (bogus_name (Z.of_nat k) (rand (rand_calls st + k)%nat))
      (fname F).
Proof.
  intros Hk. rewrite cycle_snd. cbn [module].
  set (st1 := (obfuscateStrings XorKey st).2).
  assert (functions (module st1) = functions (module st)) as Hf1.
  { unfold st1. by rewrite obf_module, encryptAll_functions. }
  assert (rand_calls st1 = rand_calls st) as Hr1.
  { unfold st1. by rewrite obfuscateStrings_eq. }
  destruct (insertBogusFunctions_loop_spec rand (Z.to_nat BogusCount) 0 st1)
    as (_ & (news & Hf & Hlen & _) & _).
  assert (is_Some (news !! k)) as [F HF]
    by (apply lookup_lt_is_Some_2; lia).
  assert (functions (module (insertBogusFunctions BogusCount rand st1).2)
            !! (length (functions (module st1)) + k)%nat = Some F) as Hl.
  { unfold insertBogusFunctions. cbn [snd]. rewrite Hf.
    rewrite lookup_app_r by lia.
    by replace (length (functions (module st1)) + k
                - length (functions (module st1)))%nat with k by lia. }
  pose proof Hl as Hl'. unfold insertBogusFunctions in Hl'. cbn [snd] in Hl'.
  destruct (insertBogus_loop_new rand _ 0 st1 k F Hl') as (_ & H1 & H2 & H3).
  rewrite Z.add_0_l in H2, H3. rewrite Hr1 in H3. rewrite Hf1 in Hl.
  exists F. split_and!; [|exact H1|exact H2|exact H3].
  apply dead_functions_other.
  - by rewrite rename_module, renameAll_functions.
  - intros He.
    assert (deadEligible F = true) as Ht.
    { apply (first_eligible_lookup _ _ _ He).
      by rewrite rename_module, renameAll_functions. }
    rewrite (entered_not_eligible _ F H3) in Ht. discriminate.
Qed.

Lemma after_cycles_functions_length n st :
  length (functions (module (after_cycles XorKey BogusCount rand n st))) =
  (length (functions (module st)) + n * Z.to_nat BogusCount)%nat.
Proof.
  induction n as [|n IH];
    [change (after_cycles XorKey BogusCount rand 0 st) with st; lia|].
  rewrite after_cycles_S.
  destruct (cycle_functions XorKey BogusCount rand
              (after_cycles XorKey BogusCount rand n st)) as (news & Hn & Hlen).
  apply (f_equal length) in Hn. rewrite length_app, !length_fmap in Hn.
  rewrite Hn, IH, Hlen. lia.
Qed.

Lemma after_cycles_rand_calls n st :
  rand_calls (after_cycles XorKey BogusCount rand n st) =
  (rand_calls st + n * Z.to_nat BogusCount)%nat.
Proof.
  induction n as [|n IH];
    [change (after_cycles XorKey BogusCount rand 0 st) with st; lia|].
  rewrite after_cycles_S, cycle_rand_calls, IH. lia.
Qed.

(** The function added in cycle [c] for ordinal [k]. *)
Lemma after_cycles_new_function n st c k :
  (c < n)%nat -> (k < Z.to_nat BogusCount)%nat ->
  ∃ F,
    functions (module (after_cycles XorKey BogusCount rand n st))
      !! (length (functions (module st)) + c * Z.to_nat BogusCount + k)%nat
      = Some F ∧
    flinkage F = PrivateLinkage ∧
    fblocks F = [bogus_entry (Z.of_nat k)] ∧
    entered_as
      (bogus_name (Z.of_nat k)
         (rand (rand_calls st + c * Z.to_nat BogusCount + k)%nat))
      (fname F).
Proof.
  intros Hc Hk. induction n as [|n IH]; [lia|].
  rewrite after_cycles_S.
  destruct (decide (c < n)%nat) as [Hlt|Hge].
  - destruct (IH Hlt) as (F & H1 & H2 & H3 & H4).
    exists F. split_and!; try done.
    destruct (cycle_functions_shape XorKey BogusCount rand
                (after_cycles XorKey BogusCount rand n st)) as [_ Hs].
    apply Hs; [exact H1|].
    intros He. pose proof (first_eligible_lookup _ _ _ He H1) as Ht.
    rewrite (entered_not_eligible _ F H4) in Ht. discriminate.
  - assert (c = n) as -> by lia.
    destruct (cycle_new_function (after_cycles XorKey BogusCount rand n st) k Hk)
      as (F & H1 & H2 & H3 & H4).
    rewrite after_cycles_functions_length in H1.
    rewrite after_cycles_rand_calls in H4.
    exists F. split_and!; done.
Qed.

(** With [bogusCount <= 0] the whole run leaves the list of functions at
    its length and the synthesizer's counters alone. *)
Lemma after_cycles_without_bogus n st :
  BogusCount <= 0 ->
  length (functions (module (after_cycles XorKey BogusCount rand n st))) =
    length (functions (module st)) ∧
  fake_funcs_inserted (after_cycles XorKey BogusCount rand n st) =
    fake_funcs_inserted st ∧
  rand_calls (after_cycles XorKey BogusCount rand n st) = rand_calls st.
Proof.
  intros H.
  assert (Z.to_nat BogusCount = 0%nat) as H0 by lia.
  split_and!.
  - rewrite after_cycles_functions_length, H0. lia.
  - induction n as [|n IH]; [done|].
    by rewrite after_cycles_S, cycle_fake_funcs, H0, IH.
  - rewrite after_cycles_rand_calls, H0. lia.
Qed.

(** *** What a cycle reports and does, whatever [bogusCount] *)

Lemma cycle_reports_strings st :
  stringGlobals (module st) ≠ [] ->
  (cycle XorKey BogusCount rand st).1 = true.
Proof.
  intros Hs. rewrite cycle_fst, obfuscateStrings_eq. cbn [fst].
  by rewrite bool_decide_eq_false_2.
Qed.

Lemma cycle_reports_rename st i g :
  globals (module st) !! i = Some g -> isRenamable g = true ->
  (cycle XorKey BogusCount rand st).1 = true.
Proof.
  intros Hg Hr.
  destruct (stringGlobals (module st)) as [|j l] eqn:Hs;
    [|apply cycle_reports_strings; by rewrite Hs].
  rewrite cycle_fst.
  assert (obfuscateStrings XorKey st = (false, st)) as ->.
  { rewrite obfuscateStrings_eq, Hs. simpl. by destruct st. }
  cbn [fst snd]. rewrite renamePrivateGlobals_eq. cbn [fst].
  assert (i ∈ toRename (module (insertBogusFunctions BogusCount rand st).2))
    as Hin.
  { apply (toRename_elem _ i g); [|exact Hr]. by apply bogus_external. }
  destruct (toRename _) as [|j0 l0]; [by apply elem_of_nil in Hin|].
  simpl. by rewrite orb_true_r.
Qed.

Lemma cycle_reports_dead st j :
  first_eligible (functions (module st)) = Some j ->
  (cycle XorKey BogusCount rand st).1 = true.
Proof.
  intros He. rewrite cycle_fst.
  destruct (cycle_functions_before_dead XorKey BogusCount rand st)
    as (news & H1 & Hn).
  set (st3 := (renamePrivateGlobals _).2) in *.
  assert (first_eligible (functions (module st3)) = Some j) as H2.
  { rewrite H1, first_eligible_app by done. exact He. }
  destruct (dead_functions_Some st3 j H2) as (F0 & En & ot & _ & _ & _ & ->).
  cbn [fst]. by rewrite orb_true_r.
Qed.

Lemma cycle_globals_grow st :
  (length (globals (module st)) <=
   length (globals (module (cycle XorKey BogusCount rand st).2)))%nat.
Proof. rewrite cycle_globals_length. lia. Qed.

Lemma after_cycles_globals_grow n st :
  (length (globals (module st)) <=
   length (globals (module (after_cycles XorKey BogusCount rand n st))))%nat.
Proof.
  induction n as [|n IH]; [done|].
  rewrite after_cycles_S.
  pose proof (cycle_globals_grow (after_cycles XorKey BogusCount rand n st)).
  lia.
Qed.

Lemma after_cycles_strings_grow n st :
  stringGlobals (module st) ≠ [] ->
  (length (globals (module st)) <
   length (globals (module (after_cycles XorKey BogusCount rand (S n) st))))%nat.
Proof.
  intros Hs. rewrite after_cycles_S_l.
  pose proof (after_cycles_globals_grow n (cycle XorKey BogusCount rand st).2)
    as H.
  rewrite cycle_globals_length in H.
  destruct (stringGlobals (module st)); [done|]. simpl in H. lia.
Qed.

(** A global the renamer can select has the suffix after the first cycle,
    from the encryptor or from the renamer, and keeps it. *)
Lemma cycle_renamed st i g :
  globals (module st) !! i = Some g -> isRenamable g = true ->
  ∃ g' tail,
    globals (module (cycle XorKey BogusCount rand st).2) !! i = Some g' ∧
    gname g' = (gname g +:+ "_obf" +:+ tail)%string.
Proof.
  intros Hg Hr.
  assert (∃ g1 t1,
            globals (module (obfuscateStrings XorKey st).2) !! i = Some g1 ∧
            (g1 = g ∨ gname g1 = (gname g +:+ "_obf" +:+ t1)%string)) as
    (g1 & t1 & H1 & Hg1).
  { destruct (isStringGlobal g) eqn:Hs.
    - assert (i ∈ stringGlobals (module st)) as Hin
        by by apply (stringGlobals_elem _ _ g).
      destruct (stringGlobals_encryptable _ _ Hin) as (g0 & elts & Hg0 & _ & Hc).
      rewrite Hg in Hg0. injection Hg0 as <-.
      destruct (encryptAll_self XorKey _ _ i g Int8Ty elts (NoDup_collect _ _ _)
                  Hin Hg Hc) as (n & Hn & Hl).
      destruct (entered_as_prefix _ _ Hn) as (t1 & ->).
      eexists _, t1. rewrite obf_module. split; [exact Hl|]. right.
      simpl. by rewrite string_app_assoc.
    - destruct (obf_global_any XorKey st i g Hg) as (g1 & H1 & _ & He & _).
      exists g1, ""%string. split; [exact H1|]. left. by apply He. }
  apply (bogus_external BogusCount rand) in H1.
  destruct (rename_global_any _ i g1 H1) as (n & H2 & Hr1 & Hr2).
  apply dead_external in H2.
  rewrite cycle_snd. cbn [module].
  destruct Hg1 as [->|Hg1].
  - destruct (entered_as_prefix _ _ (Hr2 Hr)) as (t2 & Hn).
    exists (withName g n), t2. split; [exact H2|].
    simpl. by rewrite Hn, string_app_assoc.
  - destruct (isRenamable g1) eqn:Hr'.
    + destruct (entered_as_prefix _ _ (Hr2 eq_refl)) as (t2 & Hn).
      exists (withName g1 n), (t1 +:+ "_obf" +:+ t2)%string.
      split; [exact H2|].
      simpl. by rewrite Hn, Hg1, !string_app_assoc.
    + exists (withName g1 n), t1. split; [exact H2|].
      simpl. by rewrite (Hr1 eq_refl), Hg1.
Qed.

Lemma after_cycles_renamed n st i g :
  globals (module st) !! i = Some g -> isRenamable g = true ->
  ∃ g' tail,
    globals (module (after_cycles XorKey BogusCount rand (S n) st)) !! i
      = Some g' ∧
    gname g' = (gname g +:+ "_obf" +:+ tail)%string.
Proof.
  intros Hg Hr. rewrite after_cycles_S_l.
  destruct (cycle_renamed st i g Hg Hr) as (g1 & t1 & H1 & Hn1).
  destruct (after_cycles_global_any XorKey BogusCount rand n _ i g1 H1)
    as (g' & H2 & (_ & _ & t2 & Hn2) & _).
  exists g', (t1 +:+ t2)%string. split; [exact H2|].
  by rewrite Hn2, Hn1, !string_app_assoc.
Qed.

End Added.

(** * The claims *)

Import Samples.


(** ** String Constant Encryptor *)

(** C1 (the code at the scenario of the claim).  For the global ["ABC"]
    (bytes 0x41 0x42 0x43 0x00) and [xorKey = 0xAA], after one cycle the
    payload is 0xEB 0xE8 0xE9 0x00 and the name is the old name followed by
    the processing suffix: the three characters are XORed with the low byte
    of the key, the terminator is stored as a plain zero and not as
    [0x00 XOR 0xAA = 0xAA], which is what XORing every byte would give. *)
Theorem terminator_not_encrypted :
  let st' := (runOnModule 170 2 1 rand_ex (initial M_ABC)).2 in
  globals (module st') !! 0%nat =
    Some {| gname := ".str_obf"; glinkage := PrivateLinkage;
            isConstant := true;
            initializer := Some (ConstantDataArray Int8Ty [235; 232; 233; 0]) |}
  ∧ xor_bytes 170 [65; 66; 67; 0] = [235; 232; 233; 170].
Proof. split; vm_compute; reflexivity. Qed.

(** C7.  For all byte sequences [s] and keys [k], applying the encryptor's
    per-byte XOR with [k & 0xFF] twice gives [s] back: decryption is the
    same operation as encryption. *)
Theorem xor_involution (XorKey : Z) (s : list Z) :
  Forall is_byte s -> xor_bytes XorKey (xor_bytes XorKey s) = s.
Proof. apply xor_bytes_involutive. Qed.

Lemma xor_involution_witness :
  Forall is_byte [65; 66; 67; 0] ∧
  xor_bytes 170 (xor_bytes 170 [65; 66; 67; 0]) = [65; 66; 67; 0].
Proof.
  assert (Forall is_byte [65; 66; 67; 0]) as Hb by in_bounds.
  split; [exact Hb|].
  exact (xor_involution 170 _ Hb).
Defined.




(** C9, as amended.  The selection does not look at the name.  A selected
    global whose text (the payload without its last byte) is not all zero
    bytes, and is not all zero bytes once XORed with the key, is selected
    again in every later cycle: each cycle XORs its payload again, appends
    another suffix to its name and counts it again. *)
Theorem reencrypted_every_cycle (XorKey BogusCount : Z) (rand : nat -> Z)
    (st : State) (i : nat) (g : GlobalVariable) (elts : list Z) :
  globals (module st) !! i = Some g ->
  isStringGlobal g = true ->
  initializer g = Some (ConstantDataArray Int8Ty elts) ->
  Forall is_byte elts ->
  allZeros (getAsCString elts) = false ->
  allZeros (xor_bytes XorKey (getAsCString elts)) = false ->
  in_range (strings_obf_count st) ->
  (∀ n, isStringGlobal (withName g n) = isStringGlobal g) ∧
  reencrypted_each_cycle XorKey BogusCount rand st i.
Proof.
  intros Hg Hs Hc Hb H1 H2 Hr. split; [done|]. intros n before after.
  destruct (string_global_persists XorKey BogusCount rand st i g elts
              Hg Hs Hc Hb H1 H2 n) as (g_n & Hgn & Hsn & Hcn).
  destruct (string_global_persists XorKey BogusCount rand st i g elts
              Hg Hs Hc Hb H1 H2 (S n)) as (g' & Hg' & _ & Hc').
  destruct (cycle_string_global XorKey BogusCount rand _ i g_n _ Hgn Hsn Hcn)
    as (g'' & Hg'' & _ & _ & _ & Htail).
  rewrite <- after_cycles_S in Hg''. rewrite Hg' in Hg''. injection Hg'' as <-.
  exists g_n, (Nat.iter n (encrypted XorKey) elts), g'.
  split_and!; try done.
  - unfold stringGlobals. apply elem_of_collect_0. eauto.
  - unfold after. rewrite after_cycles_S, cycle_strings_count.
    rewrite foldl_incr by by apply after_cycles_strings_in_range.
    reflexivity.
Qed.

Lemma reencrypted_every_cycle_witness :
  reencrypted_each_cycle 170 2 rand_ex (initial M_ABC) 0.
Proof.
  assert (Forall is_byte [65; 66; 67; 0]) as Hb by in_bounds.
  assert (in_range 0) as Hr by in_bounds.
  exact (proj2 (reencrypted_every_cycle 170 2 rand_ex (initial M_ABC) 0 str_ABC
                  [65; 66; 67; 0] eq_refl eq_refl eq_refl Hb eq_refl eq_refl
                  Hr)).
Defined.

(** C9 as stated fails: the string ["\xAA"] under the key 0xAA encrypts to
    zero bytes only, which the module stores as a zero initializer; the
    global is selected in the first cycle and in no later one. *)
Lemma zero_payload_not_reencrypted :
  isStringGlobal str_AA = true ∧
  ¬ reencrypted_each_cycle 170 2 rand_ex (initial M_AA) 0.
Proof.
  split; [reflexivity|]. intros H.
  destruct (H 1%nat) as (g & elts & g' & Hg & Hs & _).
  vm_compute in Hg. injection Hg as <-. vm_compute in Hs. discriminate.
Qed.



(** ** Bogus Function Synthesizer *)

(** C3, as amended.  For [cycles = C >= 0] and [bogusCount = B >= 0], on a
    module whose names are unique, a run adds exactly [C * B] functions at
    the end of the list of functions; the functions that were there keep
    their names; all names are pairwise distinct, so no added function has
    the name of one that existed; the inserted-function counter advances by
    [C * B] modulo [2^32]; and exactly one random number is drawn per added
    function.  The function added in cycle [c] for ordinal [k] is private,
    has the decoy body, and is entered under the name generated from [k]
    and the one number drawn for it: it has that name, or that name followed
    by a dot and a number; and it has the latter whenever another function
    of the module has the generated name.  A taken name is made unique by
    the symbol table, not drawn again. *)
Theorem bogus_functions_added (XorKey BogusCount Cycles : Z)
    (rand : nat -> Z) (st : State) :
  0 <= BogusCount -> 0 <= Cycles ->
  wf (module st) -> in_range (fake_funcs_inserted st) ->
  let st' := (runOnModule XorKey BogusCount Cycles rand st).2 in
  let old := length (functions (module st)) in
  Z.of_nat (length (functions (module st'))) =
    Z.of_nat old + Cycles * BogusCount ∧
  fname <$> take old (functions (module st')) = fname <$> functions (module st) ∧
  NoDup (fname <$> functions (module st')) ∧
  (∀ F, F ∈ drop old (functions (module st')) ->
        fname F ∉ fname <$> functions (module st)) ∧
  fake_funcs_inserted st' =
    (fake_funcs_inserted st + Cycles * BogusCount) mod 2 ^ 32 ∧
  Z.of_nat (rand_calls st') = Z.of_nat (rand_calls st) + Cycles * BogusCount ∧
  (∀ c k : nat, Z.of_nat c < Cycles -> Z.of_nat k < BogusCount ->
     let p := (old + c * Z.to_nat BogusCount + k)%nat in
     let generated :=
       bogus_name (Z.of_nat k)
         (rand (rand_calls st + c * Z.to_nat BogusCount + k)%nat) in
     ∃ F, functions (module st') !! p = Some F ∧
          flinkage F = PrivateLinkage ∧
          fblocks F = [bogus_entry (Z.of_nat k)] ∧
          entered_as generated (fname F) ∧
          (∀ q G, q ≠ p -> functions (module st') !! q = Some G ->
                  fname G = generated ->
                  ∃ m : nat, fname F = candidate generated m)).
Proof.
  intros HB HC Hwf Hf st' old.
  assert (st' = after_cycles XorKey BogusCount rand (Z.to_nat Cycles) st)
    as Hst' by reflexivity.
  destruct (after_cycles_counts XorKey BogusCount rand (Z.to_nat Cycles) st Hf)
    as ((news & Hn & Hlen) & Hfk & Hr).
  rewrite <- Hst' in Hn, Hfk, Hr.
  pose proof (after_cycles_wf XorKey BogusCount rand (Z.to_nat Cycles) st Hwf)
    as Hwf'.
  rewrite <- Hst' in Hwf'.
  assert (Z.of_nat (Z.to_nat Cycles * Z.to_nat BogusCount) = Cycles * BogusCount)
    as Hmul by lia.
  assert (NoDup (fname <$> functions (module st'))) as Hnd.
  { unfold wf, symbols in Hwf'. by apply NoDup_app in Hwf' as (_ & _ & ?). }
  split_and!.
  - rewrite <- (length_fmap fname), Hn, length_app, length_fmap, Hlen.
    fold old. lia.
  - rewrite fmap_take, Hn. apply take_app_length'.
    by rewrite length_fmap.
  - exact Hnd.
  - intros F HF Hin.
    pose proof Hnd as Hnd'.
    rewrite Hn in Hnd'. apply NoDup_app in Hnd' as (_ & Hdisj & _).
    apply (Hdisj _ Hin).
    apply (list_elem_of_fmap_2 fname) in HF.
    rewrite fmap_drop, Hn in HF.
    rewrite drop_app_length' in HF by (by rewrite length_fmap). exact HF.
  - rewrite Hfk. unfold bump. by rewrite Hmul.
  - rewrite Hr. lia.
  - intros c k Hc Hk p generated.
    destruct (after_cycles_new_function XorKey BogusCount rand
                (Z.to_nat Cycles) st c k) as (F & H1 & H2 & H3 & H4);
      [lia|lia|].
    rewrite <- Hst' in H1. fold old in H1. fold p in H1. fold generated in H4.
    exists F. split_and!; try done.
    intros q G Hq HG Hname.
    destruct H4 as [Heq|Hm]; [|exact Hm]. exfalso. apply Hq.
    apply (NoDup_lookup _ q p generated Hnd).
    + by rewrite list_lookup_fmap, HG, <- Hname.
    + by rewrite list_lookup_fmap, H1, <- Heq.
Qed.

Lemma bogus_functions_added_witness :
  let st' := (runOnModule 170 2 3 rand_ex (initial M_ABC)).2 in
  Z.of_nat (length (functions (module st'))) = 1 + 3 * 2 ∧
  NoDup (fname <$> functions (module st')) ∧
  Z.of_nat (rand_calls st') = 0 + 3 * 2 ∧
  ∃ F, functions (module st') !! 4%nat = Some F ∧
       entered_as (bogus_name 1 (rand_ex 3)) (fname F).
Proof.
  assert (wf M_ABC) as Hwf by by_evaluation.
  destruct (bogus_functions_added 170 2 3 rand_ex (initial M_ABC))
    as (H1 & _ & H3 & _ & _ & H6 & H7); [lia|lia|exact Hwf|in_bounds|].
  split_and!; [exact H1|exact H3|exact H6|].
  destruct (H7 1%nat 1%nat) as (F & HF & _ & _ & He & _); [lia|lia|].
  exists F. split; [exact HF|exact He].
Defined.

(** C3 as stated fails: in a second cycle whose draw for ordinal 0 agrees
    with the first cycle's modulo 10000, the generated name
    [bogus_func_0_42] is taken; the one number drawn is the only one, and
    the function is entered as [bogus_func_0_42.1], which is the name
    generated from no drawn number. *)
Lemma collision_not_redrawn :
  ¬ names_are_drawn 1 rand_same (after_cycles 170 1 rand_same 1 (initial M_ABC)).
Proof.
  intros H.
  destruct (H 0%nat {| fname := "bogus_func_0_42.1"; flinkage := PrivateLinkage;
                       fblocks := [bogus_entry 0] |}) as (c & Hc & Hn).
  - vm_compute. reflexivity.
  - vm_compute in Hc. assert (c = 1%nat) as -> by lia.
    vm_compute in Hn. discriminate.
Qed.

(** ** Symbol Renamer *)

(** C5, as amended.  On a module whose names are unique and where no name
    the renamer asks for (a selected global's name followed by [_obf]) is
    already taken, one run gives every selected global exactly that name and
    leaves the others alone, and a second run selects nothing and changes
    nothing. *)
Theorem rename_idempotent (st : State) :
  wf (module st) -> no_collision (module st) ->
  let once := (renamePrivateGlobals st).2 in
  globals (module once) = rename_one <$> globals (module st) ∧
  toRename (module once) = [] ∧
  renamePrivateGlobals once = (false, once).
Proof.
  intros Hwf Hfree once.
  assert (module once =
          {| globals := rename_one <$> globals (module st);
             functions := functions (module st);
             LastUnique := LastUnique (module st) |}) as Hm.
  { unfold once. rewrite rename_module. unfold toRename.
    destruct (module st) as [gs fs lu] eqn:EM.
    cbn [globals functions LastUnique].
    apply (renameAll_collect [] gs fs lu).
    - unfold wf, symbols in Hwf. simpl in Hwf.
      by apply NoDup_app in Hwf as (? & _ & _).
    - intros g Hin Hr. specialize (Hfree g Hin Hr). exact Hfree. }
  assert (toRename (module once) = []) as Hnone.
  { unfold toRename. apply collect_nil_iff. rewrite Hm. cbn [globals].
    intros x (g & -> & _)%list_elem_of_fmap. apply isRenamable_rename_one. }
  split_and!; [by rewrite Hm|exact Hnone|].
  rewrite renamePrivateGlobals_eq, Hnone. reflexivity.
Qed.

Lemma rename_idempotent_witness :
  renamePrivateGlobals (renamePrivateGlobals (initial M_ABC)).2
  = (false, (renamePrivateGlobals (initial M_ABC)).2).
Proof.
  assert (wf M_ABC) as Hwf by by_evaluation.
  assert (no_collision M_ABC) as Hfree.
  { intros g Hin Hr. apply list_elem_of_singleton in Hin as ->. by_evaluation. }
  exact (proj2 (proj2 (rename_idempotent (initial M_ABC) Hwf Hfree))).
Defined.

(** C5 as stated fails: with a private [@counter] next to an external
    [@counter_obf], the first run enters the private global as
    [counter_obf.1], which ends in neither suffix, and the second run
    renames it again, to [counter_obf.1_obf]. *)
Lemma rename_twice_differs :
  gname <$> globals
    (module (renamePrivateGlobals
               (renamePrivateGlobals (initial M_collide)).2).2)
  ≠ gname <$> globals (module (renamePrivateGlobals (initial M_collide)).2).
Proof. vm_compute. discriminate. Qed.

(** ** Whole runs *)

(** C6.  A global with external linkage is selected neither by the
    encryptor nor by the renamer, and it is the same, at the same place,
    after each of the four passes, after any number of cycles and after a
    whole run, whatever the configuration. *)
Theorem external_globals_untouched (XorKey BogusCount Cycles : Z)
    (rand : nat -> Z) (st : State) (i : nat) (g : GlobalVariable) :
  globals (module st) !! i = Some g ->
  glinkage g = ExternalLinkage ->
  isStringGlobal g = false ∧ isRenamable g = false ∧
  globals (module (obfuscateStrings XorKey st).2) !! i = Some g ∧
  globals (module (insertBogusFunctions BogusCount rand st).2) !! i = Some g ∧
  globals (module (renamePrivateGlobals st).2) !! i = Some g ∧
  globals (module (insertDeadConditionals st).2) !! i = Some g ∧
  (∀ n, globals (module (after_cycles XorKey BogusCount rand n st)) !! i
        = Some g) ∧
  globals (module (runOnModule XorKey BogusCount Cycles rand st).2) !! i
    = Some g.
Proof.
  intros Hg Hl. split_and!.
  - by apply external_not_string.
  - by apply external_not_renamable.
  - by apply obf_external.
  - by apply bogus_external.
  - by apply rename_external.
  - by apply dead_external.
  - intros n. by apply after_cycles_external.
  - by apply (after_cycles_external XorKey BogusCount rand (Z.to_nat Cycles)).
Qed.

Lemma external_globals_untouched_witness :
  globals (module (runOnModule 170 2 3 rand_ex (initial M_ext)).2) !! 1%nat
  = Some version.
Proof.
  destruct (external_globals_untouched 170 2 3 rand_ex (initial M_ext) 1
              version eq_refl eq_refl) as (_ & _ & _ & _ & _ & _ & _ & H).
  exact H.
Defined.

(** C4, as amended.  No configuration is rejected.  With [cycles <= 0] no
    pass runs: the module and the counters are as before and the run reports
    no change.  With [bogusCount <= 0] the synthesizer adds nothing and
    reports no change, and the run is the run with [bogusCount = 0]: each
    cycle is the encryptor, the renamer and the dead-branch inserter in this
    order, followed by the count of the cycle.  With moreover [cycles >= 1]
    these passes change the module as in any run: if there is a string to
    select, the run reports a change and the module has more globals; a
    global the renamer can select has the processing suffix appended to its
    name; the function the inserter can take has two more blocks per cycle;
    and the number of functions, the inserted-function counter and the
    number of random numbers drawn are as before. *)
Theorem no_configuration_check (XorKey BogusCount Cycles : Z)
    (rand : nat -> Z) (st : State) :
  (Cycles <= 0 ->
   runOnModule XorKey BogusCount Cycles rand st = (false, st)) ∧
  (BogusCount <= 0 ->
   insertBogusFunctions BogusCount rand st = (false, st) ∧
   cycle XorKey BogusCount rand st =
     (let r1 := obfuscateStrings XorKey st in
      let r3 := renamePrivateGlobals r1.2 in
      let r4 := insertDeadConditionals r3.2 in
      (r1.1 || r3.1 || r4.1,
       {| module := module r4.2;
          strings_obf_count := strings_obf_count r4.2;
          fake_funcs_inserted := fake_funcs_inserted r4.2;
          cycles_completed := incr (cycles_completed r4.2);
          rand_calls := rand_calls r4.2 |})) ∧
   runOnModule XorKey BogusCount Cycles rand st =
     runOnModule XorKey 0 Cycles rand st ∧
   (1 <= Cycles ->
    let r := runOnModule XorKey BogusCount Cycles rand st in
    (stringGlobals (module st) ≠ [] ->
     r.1 = true ∧
     (length (globals (module st)) < length (globals (module r.2)))%nat) ∧
    (∀ i g, globals (module st) !! i = Some g -> isRenamable g = true ->
       r.1 = true ∧
       ∃ g' tail, globals (module r.2) !! i = Some g' ∧
                  gname g' = (gname g +:+ "_obf" +:+ tail)%string) ∧
    (∀ j F, first_eligible (functions (module st)) = Some j ->
       functions (module st) !! j = Some F ->
       r.1 = true ∧
       ∃ F', functions (module r.2) !! j = Some F' ∧
             length (fblocks F') =
               (length (fblocks F) + 2 * Z.to_nat Cycles)%nat) ∧
    length (functions (module r.2)) = length (functions (module st)) ∧
    fake_funcs_inserted r.2 = fake_funcs_inserted st ∧
    rand_calls r.2 = rand_calls st)).
Proof.
  split; [|intros HB; split_and!].
  - intros H. unfold runOnModule.
    by replace (Z.to_nat Cycles) with 0%nat by lia.
  - by apply bogus_nothing.
  - by apply cycle_without_bogus.
  - by apply run_cycles_without_bogus.
  - intros HC r.
    assert (∃ n, Z.to_nat Cycles = S n) as [n Hn]
      by (exists (Z.to_nat (Cycles - 1)); lia).
    assert (r.2 = after_cycles XorKey BogusCount rand (S n) st) as Hr2
      by (unfold r, runOnModule, after_cycles; by rewrite Hn).
    assert ((cycle XorKey BogusCount rand st).1 = true -> r.1 = true) as Hr1.
    { intros H. unfold r, runOnModule. rewrite Hn.
      by apply run_cycles_S_fst. }
    rewrite Hr2. split_and!.
    + intros Hs. split.
      * by apply Hr1, cycle_reports_strings.
      * by apply after_cycles_strings_grow.
    + intros i g Hg Hr. split.
      * by apply Hr1, (cycle_reports_rename _ _ _ _ i g).
      * by apply after_cycles_renamed.
    + intros j F He HF. split.
      * by apply Hr1, (cycle_reports_dead _ _ _ _ j).
      * destruct (after_cycles_chosen XorKey BogusCount rand (S n) st j F He HF)
          as (F' & H1 & _ & _ & H4 & _).
        exists F'. split; [exact H1|]. by rewrite Hn.
    + by apply after_cycles_without_bogus.
    + by apply after_cycles_without_bogus.
    + by apply after_cycles_without_bogus.
Qed.

Lemma no_configuration_check_witness :
  runOnModule 170 (-1) 0 rand_ex (initial M_ABC) = (false, initial M_ABC) ∧
  insertBogusFunctions (-1) rand_ex (initial M_ABC) = (false, initial M_ABC) ∧
  (runOnModule 170 (-1) 2 rand_ex (initial M_ABC)).1 = true ∧
  (1 < length (globals (module (runOnModule 170 (-1) 2 rand_ex
                                  (initial M_ABC)).2)))%nat ∧
  length (functions (module (runOnModule 170 (-1) 2 rand_ex
                               (initial M_ABC)).2)) = 1%nat.
Proof.
  destruct (no_configuration_check 170 (-1) 0 rand_ex (initial M_ABC))
    as [H1 H2].
  destruct (no_configuration_check 170 (-1) 2 rand_ex (initial M_ABC))
    as [_ H3].
  destruct H2 as (H2 & _); [lia|].
  destruct H3 as (_ & _ & _ & H3); [lia|].
  destruct H3 as (Hs & _ & _ & Hl & _); [lia|].
  destruct Hs as [Hs1 Hs2]; [discriminate|].
  split_and!; [apply H1; lia|exact H2|exact Hs1|exact Hs2|exact Hl].
Defined.

(** C4 as stated fails: with [bogusCount = -1] and [cycles = 1] the run is
    not rejected; the encryptor runs, reports a change and counts one
    string, and the module is not the one that was handed in. *)
Lemma negative_bogusCount_runs :
  (runOnModule 170 (-1) 1 rand_ex (initial M_ABC)).1 = true ∧
  strings_obf_count (runOnModule 170 (-1) 1 rand_ex (initial M_ABC)).2 = 1 ∧
  module (runOnModule 170 (-1) 1 rand_ex (initial M_ABC)).2 ≠ M_ABC.
Proof. split_and!; vm_compute; [reflexivity|reflexivity|discriminate]. Qed.

(** ** Dead-Branch Inserter *)

(** C2 (the code on a function that prints and returns 7).  Before the
    pass, a call makes the call to [puts] and returns 7.  After the pass the
    continuation block (the third block) consists of a jump to the entry
    block, whose first instruction branches to the continuation block: a
    call never returns, whatever the number of steps it is given. *)
Theorem dead_branch_loops :
  let st' := (insertDeadConditionals (initial M_ABC)).2 in
  call 3 main_fn [] = Returned 7 [("puts"%string, [0])] ∧
  ∃ F', functions (module st') !! 0%nat = Some F' ∧
        fblocks F' !! 2%nat = Some [Br 0%nat] ∧
        ∀ fuel, call fuel F' [] = OutOfFuel.
Proof.
  split; [reflexivity|].
  exists (addDeadConditional main_fn
            [Call "puts" [GlobalRef 0]; Ret (ConstantInt 32 7)] []).
  split_and!; [reflexivity|reflexivity|].
  intros fuel. apply addDeadConditional_loops.
Qed.

(** * More of the pass *)

(** ** Decoys *)

(** X1.  The function the synthesizer adds for ordinal [k] is private, has
    the single block of lines 181-188, and called on [x] it makes no call
    and returns [8 * x + 14 * k + 8] modulo [2^32]. *)
Theorem decoy_value (BogusCount : Z) (rand : nat -> Z) (st : State)
    (k : nat) (F : Function) (x : Z) (args : list Z) (fuel : nat) :
  functions (module (insertBogusFunctions BogusCount rand st).2)
    !! (length (functions (module st)) + k)%nat = Some F ->
  flinkage F = PrivateLinkage ∧
  fblocks F = [bogus_entry (Z.of_nat k)] ∧
  call (7 + fuel) F (x :: args) =
    Returned ((8 * x + 14 * Z.of_nat k + 8) mod 2 ^ 32) [].
Proof.
  intros HF. unfold insertBogusFunctions in HF. cbn [snd] in HF.
  destruct (insertBogus_loop_new rand _ 0 st k F HF) as (_ & H1 & H2 & _).
  rewrite Z.add_0_l in H2.
  split_and!; [exact H1|exact H2|]. by apply bogus_entry_value.
Qed.

Lemma decoy_value_witness :
  call 7 {| fname := "bogus_func_1_43"; flinkage := PrivateLinkage;
            fblocks := [bogus_entry 1] |} [5] = Returned 62 [].
Proof.
  destruct (decoy_value 2 rand_ex (initial M_ABC) 1
              {| fname := "bogus_func_1_43"; flinkage := PrivateLinkage;
                 fblocks := [bogus_entry 1] |} 5 [] 0 eq_refl)
    as (_ & _ & H).
  exact H.
Defined.

(** X2.  Every function the synthesizer adds has a name starting with
    [bogus_func_]; the dead-branch inserter therefore passes it over, and it
    stays as created through any number of later cycles, whatever their
    configuration. *)
Theorem decoys_are_skipped (XorKey BogusCount BogusCount' : Z)
    (rand rand' : nat -> Z) (st : State) (k : nat) (F : Function) :
  let st' := (insertBogusFunctions BogusCount rand st).2 in
  let pos := (length (functions (module st)) + k)%nat in
  functions (module st') !! pos = Some F ->
  startswith (fname F) "bogus_func_" = true ∧
  deadEligible F = false ∧
  functions (module (insertDeadConditionals st').2) !! pos = Some F ∧
  ∀ n, functions (module (after_cycles XorKey BogusCount' rand' n st')) !! pos
       = Some F.
Proof.
  intros st' pos HF.
  assert (startswith (fname F) "bogus_func_" = true) as Hs.
  { unfold st', insertBogusFunctions in HF. cbn [snd] in HF.
    destruct (insertBogus_loop_new rand _ 0 st k F HF) as (_ & _ & _ & He).
    by apply (startswith_entered "bogus_func_" _ _ He). }
  assert (deadEligible F = false) as Hd.
  { unfold deadEligible. by rewrite Hs, orb_true_r. }
  assert (first_eligible (functions (module st')) ≠ Some pos) as Hne.
  { intros He. pose proof (first_eligible_lookup _ _ _ He HF). congruence. }
  split_and!; [exact Hs|exact Hd| |].
  - by apply dead_functions_other.
  - intros n.
    by apply (after_cycles_functions_shape XorKey BogusCount' rand' n st').
Qed.

Lemma decoys_are_skipped_witness :
  functions (module (after_cycles 170 2 rand_ex 3
                       (insertBogusFunctions 2 rand_ex (initial M_ABC)).2))
    !! 2%nat
  = Some {| fname := "bogus_func_1_43"; flinkage := PrivateLinkage;
            fblocks := [bogus_entry 1] |}.
Proof.
  destruct (decoys_are_skipped 170 2 2 rand_ex rand_ex (initial M_ABC) 1
              {| fname := "bogus_func_1_43"; flinkage := PrivateLinkage;
                 fblocks := [bogus_entry 1] |} eq_refl)
    as (_ & _ & _ & H).
  exact (H 3%nat).
Defined.

(** ** Dead-Branch Inserter *)

(** X3.  One call of the inserter: when no function is a definition with a
    non-empty entry block and a name not starting with [bogus_func_], it
    reports no change and leaves everything as it is; otherwise it reports a
    change and alters the first such function and nothing else (the branch
    goes in front of its entry block, two blocks are appended). *)
Theorem dead_branch_first_eligible (st : State) :
  ((∀ F, F ∈ functions (module st) -> deadEligible F = false) ->
   insertDeadConditionals st = (false, st)) ∧
  (∀ j F,
     functions (module st) !! j = Some F ->
     deadEligible F = true ->
     (∀ j' F', (j' < j)%nat -> functions (module st) !! j' = Some F' ->
               deadEligible F' = false) ->
     ∃ EntryBB others,
       fblocks F = EntryBB :: others ∧ EntryBB ≠ [] ∧
       insertDeadConditionals st =
         (true,
          withModule st
            {| globals := globals (module st);
               functions := <[j := addDeadConditional F EntryBB others]>
                              (functions (module st));
               LastUnique := LastUnique (module st) |})).
Proof.
  split.
  - intros H. apply dead_functions_None. by apply first_eligible_None.
  - intros j F HF HE Hb.
    pose proof (first_eligible_intro _ j F HF HE Hb) as Hfe.
    destruct (dead_functions_Some st j Hfe) as (F0 & En & ot & H1 & H2 & H3 & H4).
    rewrite HF in H1. injection H1 as <-. by exists En, ot.
Qed.

Lemma dead_branch_first_eligible_witness :
  insertDeadConditionals (initial M_idle) = (false, initial M_idle) ∧
  (insertDeadConditionals (initial M_demo)).1 = true.
Proof.
  destruct (dead_branch_first_eligible (initial M_idle)) as [H1 _].
  destruct (dead_branch_first_eligible (initial M_demo)) as [_ H2].
  split.
  - apply H1. intros F HF. apply list_elem_of_singleton in HF as ->.
    reflexivity.
  - destruct (H2 0%nat main_fn eq_refl eq_refl) as (En & ot & _ & _ & ->).
    + intros j' F' Hlt. lia.
    + reflexivity.
Defined.

(** X4.  Through a whole run, of the functions of the module only the first
    one the inserter can take is ever altered: every other function,
    defined or declared, is after any number of cycles exactly what it
    was. *)
Theorem one_function_altered (XorKey BogusCount Cycles : Z) (rand : nat -> Z)
    (st : State) (j : nat) (F : Function) :
  functions (module st) !! j = Some F ->
  first_eligible (functions (module st)) ≠ Some j ->
  (∀ n, functions (module (after_cycles XorKey BogusCount rand n st)) !! j
        = Some F) ∧
  functions (module (runOnModule XorKey BogusCount Cycles rand st).2) !! j
    = Some F.
Proof.
  intros HF Hne. split.
  - intros n. by apply (after_cycles_functions_shape XorKey BogusCount rand n st).
  - by apply (after_cycles_functions_shape XorKey BogusCount rand
                (Z.to_nat Cycles) st).
Qed.

Lemma one_function_altered_witness :
  functions (module (runOnModule 170 2 3 rand_ex (initial M_demo)).2) !! 1%nat
  = Some helper_fn.
Proof.
  assert (first_eligible (functions (module (initial M_demo))) ≠ Some 1%nat)
    as Hne by (vm_compute; discriminate).
  exact (proj2 (one_function_altered 170 2 3 rand_ex (initial M_demo) 1
                  helper_fn eq_refl Hne)).
Defined.

(** X5.  The function the inserter takes in the first cycle is taken again
    in every cycle: after [n] cycles it has its name and linkage, [2 * n]
    more blocks, and from the first cycle on a call of it never returns. *)
Theorem chosen_function_every_cycle (XorKey BogusCount : Z)
    (rand : nat -> Z) (st : State) (j : nat) (F : Function) (n : nat) :
  first_eligible (functions (module st)) = Some j ->
  functions (module st) !! j = Some F ->
  ∃ F_n,
    functions (module (after_cycles XorKey BogusCount rand n st)) !! j
      = Some F_n ∧
    fname F_n = fname F ∧ flinkage F_n = flinkage F ∧
    length (fblocks F_n) = (length (fblocks F) + 2 * n)%nat ∧
    ((1 <= n)%nat -> ∀ fuel args, call fuel F_n args = OutOfFuel).
Proof. apply after_cycles_chosen. Qed.

Lemma chosen_function_every_cycle_witness :
  ∃ F_n,
    functions (module (after_cycles 170 2 rand_ex 3 (initial M_demo))) !! 0%nat
      = Some F_n ∧
    fname F_n = "main"%string ∧ length (fblocks F_n) = 7%nat.
Proof.
  destruct (chosen_function_every_cycle 170 2 rand_ex (initial M_demo) 0
              main_fn 3 eq_refl eq_refl) as (F_n & H1 & H2 & _ & H4 & _).
  exists F_n. split_and!; [exact H1|exact H2|exact H4].
Defined.

(** ** Globals *)

(** X6.  Nothing is removed or moved.  After any number of cycles every
    global is at its place with its linkage and constant flag, its old name
    is a prefix of its name, and unless the encryptor selects it its
    initializer is the same; every function is at its place with its name
    and linkage. *)
Theorem nothing_is_removed (XorKey BogusCount : Z) (rand : nat -> Z)
    (st : State) (n : nat) :
  let st' := after_cycles XorKey BogusCount rand n st in
  (∀ i g, globals (module st) !! i = Some g ->
     ∃ g', globals (module st') !! i = Some g' ∧ same_object g g' ∧
           (isStringGlobal g = false -> initializer g' = initializer g)) ∧
  (∀ j F, functions (module st) !! j = Some F ->
     ∃ F', functions (module st') !! j = Some F' ∧
           fname F' = fname F ∧ flinkage F' = flinkage F).
Proof.
  intros st'. split.
  - intros i g Hg.
    destruct (after_cycles_global_any XorKey BogusCount rand n st i g Hg)
      as (g' & H1 & H2 & H3 & _).
    by exists g'.
  - intros j F HF.
    destruct (decide (first_eligible (functions (module st)) = Some j)) as [He|Hne].
    + destruct (after_cycles_chosen XorKey BogusCount rand n st j F He HF)
        as (F_n & H1 & H2 & H3 & _).
      by exists F_n.
    + exists F. split_and!; try done.
      by apply (after_cycles_functions_shape XorKey BogusCount rand n st).
Qed.

Lemma nothing_is_removed_witness :
  ∃ g', globals (module (after_cycles 170 2 rand_ex 2 (initial M_demo))) !! 1%nat
          = Some g' ∧
        same_object global_counter g' ∧
        (isStringGlobal global_counter = false ->
         initializer g' = initializer global_counter).
Proof.
  exact (proj1 (nothing_is_removed 170 2 rand_ex (initial M_demo) 2)
           1%nat global_counter eq_refl).
Defined.

(** X7.  A global that is not private and that the encryptor does not
    select (a C [static] variable has internal linkage) is never renamed
    and never changed: the renamer takes private globals only. *)
Theorem non_private_untouched (XorKey BogusCount Cycles : Z)
    (rand : nat -> Z) (st : State) (i : nat) (g : GlobalVariable) :
  globals (module st) !! i = Some g ->
  glinkage g ≠ PrivateLinkage ->
  isStringGlobal g = false ->
  isRenamable g = false ∧
  (∀ n, globals (module (after_cycles XorKey BogusCount rand n st)) !! i
        = Some g) ∧
  globals (module (runOnModule XorKey BogusCount Cycles rand st).2) !! i
    = Some g.
Proof.
  intros Hg Hp Hs.
  assert (∀ n, globals (module (after_cycles XorKey BogusCount rand n st)) !! i
               = Some g) as H.
  { intros n.
    destruct (after_cycles_global_any XorKey BogusCount rand n st i g Hg)
      as (g' & H1 & _ & _ & H4).
    by rewrite <- (H4 Hs Hp). }
  split_and!; [|exact H|exact (H (Z.to_nat Cycles))].
  unfold isRenamable. by destruct (glinkage g).
Qed.

Lemma non_private_untouched_witness :
  globals (module (runOnModule 170 2 3 rand_ex (initial M_demo)).2) !! 1%nat
  = Some global_counter.
Proof.
  assert (glinkage global_counter ≠ PrivateLinkage) as Hp by discriminate.
  exact (proj2 (proj2 (non_private_untouched 170 2 3 rand_ex (initial M_demo) 1
                         global_counter eq_refl Hp eq_refl))).
Defined.

(** X8.  One call of the renamer changes names only.  A selected global
    (private, name ending in neither [_obf] nor [_enc]) is entered under its
    name followed by [_obf]; every other global is left as it is; the number
    of globals and the functions are the same; and the call reports a change
    exactly when it selected something. *)
Theorem renamer_changes_names_only (st : State) (i : nat)
    (g : GlobalVariable) :
  globals (module st) !! i = Some g ->
  let st' := (renamePrivateGlobals st).2 in
  (∃ n, globals (module st') !! i = Some (withName g n) ∧
        (isRenamable g = false -> n = gname g) ∧
        (isRenamable g = true ->
         entered_as (gname g +:+ "_obf") n ∧ n ≠ gname g)) ∧
  length (globals (module st')) = length (globals (module st)) ∧
  functions (module st') = functions (module st) ∧
  ((renamePrivateGlobals st).1 = true ↔
   ∃ g0, g0 ∈ globals (module st) ∧ isRenamable g0 = true).
Proof.
  intros Hg st'. split_and!.
  - destruct (rename_global_any st i g Hg) as (n & H1 & H2 & H3).
    exists n. split_and!; [exact H1|exact H2|].
    intros Hr. split; [by apply H3|].
    destruct (entered_as_prefix _ _ (H3 Hr)) as (tail & ->).
    intros Heq. apply (f_equal String.length) in Heq.
    rewrite !string_app_length in Heq. simpl in Heq. lia.
  - unfold st'. rewrite rename_module. apply renameAll_length.
  - unfold st'. rewrite rename_module. apply renameAll_functions.
  - rewrite renamePrivateGlobals_eq. cbn [fst].
    rewrite negb_true_iff, bool_decide_eq_false. split.
    + intros Hne. destruct (toRename (module st)) as [|j0 l] eqn:E; [done|].
      assert (j0 ∈ toRename (module st)) as Hj by (rewrite E; left).
      unfold toRename in Hj. apply elem_of_collect_0 in Hj as (x & Hx & Hp).
      exists x. split; [by eapply list_elem_of_lookup_2|exact Hp].
    + intros (g0 & Hin & Hr) Hn. unfold toRename in Hn.
      rewrite (proj1 (collect_nil_iff _ _ _) Hn g0 Hin) in Hr. done.
Qed.

Lemma renamer_changes_names_only_witness :
  length (globals (module (renamePrivateGlobals (initial M_demo)).2)) = 2%nat.
Proof.
  destruct (renamer_changes_names_only (initial M_demo) 0 str_ABC eq_refl)
    as (_ & H & _).
  exact H.
Defined.

(** X9.  When the names of the module are pairwise distinct, they are so
    after each of the four passes and after any number of cycles. *)
Theorem names_stay_unique (XorKey BogusCount : Z) (rand : nat -> Z)
    (st : State) :
  wf (module st) ->
  wf (module (obfuscateStrings XorKey st).2) ∧
  wf (module (insertBogusFunctions BogusCount rand st).2) ∧
  wf (module (renamePrivateGlobals st).2) ∧
  wf (module (insertDeadConditionals st).2) ∧
  ∀ n, wf (module (after_cycles XorKey BogusCount rand n st)).
Proof.
  intros Hwf. split_and!.
  - rewrite obf_module. by apply encryptAll_wf.
  - destruct (bogus_spec BogusCount rand st) as (_ & _ & H & _). by apply H.
  - rewrite rename_module. by apply renameAll_wf.
  - by apply insertDeadConditionals_wf.
  - intros n. by apply after_cycles_wf.
Qed.

Lemma names_stay_unique_witness :
  wf (module (after_cycles 170 2 rand_ex 3 (initial M_demo))).
Proof.
  assert (wf (module (initial M_demo))) as Hwf by by_evaluation.
  destruct (names_stay_unique 170 2 rand_ex (initial M_demo) Hwf)
    as (_ & _ & _ & _ & H).
  exact (H 3%nat).
Defined.

(** ** String Constant Encryptor *)

(** X10.  What one call of the encryptor stores in a selected global with a
    non-empty payload: as many bytes as before, each byte but the last the
    old byte XORed with the low byte of the key, and a zero as last byte;
    linkage and constant flag are kept. *)
Theorem encrypted_payload_shape (XorKey : Z) (st : State) (i : nat)
    (g : GlobalVariable) (elts : list Z) :
  globals (module st) !! i = Some g ->
  isStringGlobal g = true ->
  initializer g = Some (ConstantDataArray Int8Ty elts) ->
  elts ≠ [] ->
  ∃ g' c p,
    globals (module (obfuscateStrings XorKey st).2) !! i = Some g' ∧
    glinkage g' = glinkage g ∧ isConstant g' = isConstant g ∧
    initializer g' = Some c ∧ payload c = Some p ∧
    length p = length elts ∧
    (∀ j b, (S j < length elts)%nat -> elts !! j = Some b ->
            p !! j = Some (xor_byte XorKey b)) ∧
    last p = Some 0.
Proof.
  intros Hg Hs Hc Hne.
  destruct (obf_global_any XorKey st i g Hg) as (g' & H1 & (H2 & H3 & _) & _ & H4).
  exists g', (ConstantDataArray_get (encrypted XorKey elts)),
    (encrypted XorKey elts).
  split_and!; try done.
  - by apply H4.
  - apply payload_ConstantDataArray_get.
  - by apply encrypted_length.
  - intros j b. apply encrypted_lookup.
  - apply encrypted_last.
Qed.

Lemma encrypted_payload_shape_witness :
  ∃ g' c p,
    globals (module (obfuscateStrings 170 (initial M_ABC)).2) !! 0%nat = Some g' ∧
    initializer g' = Some c ∧ payload c = Some p ∧
    p !! 0%nat = Some (xor_byte 170 65) ∧ last p = Some 0.
Proof.
  assert ([65; 66; 67; 0] ≠ []) as Hne by discriminate.
  destruct (encrypted_payload_shape 170 (initial M_ABC) 0 str_ABC
              [65; 66; 67; 0] eq_refl eq_refl eq_refl Hne)
    as (g' & c & p & H1 & _ & _ & H4 & H5 & _ & H7 & H8).
  exists g', c, p. split_and!; try assumption.
  apply (H7 0%nat 65); [simpl; lia|reflexivity].
Defined.

(** X11.  Encrypting twice is decrypting: a selected global whose payload
    ends in a zero byte (and whose text, the payload without that byte, is
    neither all zero bytes nor all zero bytes once XORed with the key) holds
    its original bytes again after every even number of cycles, and the
    once-encrypted bytes after every odd number.  The text may itself
    contain zero bytes. *)
Theorem even_cycles_restore (XorKey BogusCount : Z) (rand : nat -> Z)
    (st : State) (i : nat) (g : GlobalVariable) (elts : list Z) (m : nat) :
  globals (module st) !! i = Some g ->
  isStringGlobal g = true ->
  initializer g = Some (ConstantDataArray Int8Ty elts) ->
  last elts = Some 0 ->
  Forall is_byte elts ->
  allZeros (getAsCString elts) = false ->
  allZeros (xor_bytes XorKey (getAsCString elts)) = false ->
  ∃ g' g'',
    globals (module (after_cycles XorKey BogusCount rand (2 * m) st)) !! i
      = Some g' ∧
    initializer g' = initializer g ∧
    globals (module (after_cycles XorKey BogusCount rand (S (2 * m)) st)) !! i
      = Some g'' ∧
    initializer g'' = Some (ConstantDataArray Int8Ty (encrypted XorKey elts)).
Proof.
  intros Hg Hs Hc Hcs Hb H1 H2.
  destruct (string_global_persists XorKey BogusCount rand st i g elts
              Hg Hs Hc Hb H1 H2 (2 * m)) as (g' & Hg' & _ & Hc').
  destruct (string_global_persists XorKey BogusCount rand st i g elts
              Hg Hs Hc Hb H1 H2 (S (2 * m))) as (g'' & Hg'' & _ & Hc'').
  exists g', g''. split_and!; try done.
  - rewrite Hc', Hc. by rewrite iter_encrypted_even.
  - rewrite Hc''.
    change (Nat.iter (S (2 * m)) (encrypted XorKey) elts)
      with (encrypted XorKey (Nat.iter (2 * m) (encrypted XorKey) elts)).
    by rewrite iter_encrypted_even.
Qed.

Lemma even_cycles_restore_witness :
  ∃ g',
    globals (module (after_cycles 170 2 rand_ex 2 (initial M_A0B))) !! 0%nat
      = Some g' ∧
    initializer g' = Some (ConstantDataArray Int8Ty [65; 0; 66; 0]).
Proof.
  assert (Forall is_byte [65; 0; 66; 0]) as Hb by in_bounds.
  destruct (even_cycles_restore 170 2 rand_ex (initial M_A0B) 0 str_A0B
              [65; 0; 66; 0] 1 eq_refl eq_refl eq_refl eq_refl Hb eq_refl
              eq_refl) as (g' & _ & H1 & H2 & _).
  exists g'. split; [exact H1|exact H2].
Defined.

(** X12.  The copy the encryptor appends is itself a private constant
    string: unless the encrypted bytes are all zero, it is at its place
    after the cycle, holds the encrypted bytes, and is selected by the
    encryptor of the next cycle like the global it was copied from. *)
Theorem copy_is_selected_next (XorKey BogusCount : Z) (rand : nat -> Z)
    (st : State) (pos i : nat) (g : GlobalVariable) (elts : list Z) :
  stringGlobals (module st) !! pos = Some i ->
  globals (module st) !! i = Some g ->
  initializer g = Some (ConstantDataArray Int8Ty elts) ->
  allZeros (encrypted XorKey elts) = false ->
  let st' := (cycle XorKey BogusCount rand st).2 in
  let new := (length (globals (module st)) + pos)%nat in
  ∃ c, globals (module st') !! new = Some c ∧
       glinkage c = PrivateLinkage ∧ isConstant c = true ∧
       initializer c = Some (ConstantDataArray Int8Ty (encrypted XorKey elts)) ∧
       new ∈ stringGlobals (module st').
Proof.
  intros Hpos Hg Hc Hz st' new.
  pose proof (encryptAll_new XorKey _ _ pos i g Int8Ty elts
                (NoDup_collect _ _ _)
                (stringGlobals_all_encryptable (module st)) Hpos Hg Hc) as Hl.
  cbv zeta in Hl. rewrite <- obf_module in Hl.
  apply (bogus_external BogusCount rand) in Hl.
  destruct (rename_global_any _ _ _ Hl) as (n & Hr & _).
  apply dead_external in Hr.
  assert (globals (module st') !! new = Some (withName
            {| gname := (createValueName
                 (symbols (foldl (encryptString XorKey) (module st)
                                 (take pos (stringGlobals (module st)))))
                 (LastUnique (foldl (encryptString XorKey) (module st)
                                 (take pos (stringGlobals (module st)))))
                 (gname g +:+ "_enc")).1;
               glinkage := PrivateLinkage; isConstant := true;
               initializer :=
                 Some (ConstantDataArray_get (encrypted XorKey elts)) |} n))
    as Hst'.
  { unfold st'. rewrite cycle_snd. cbn [module]. exact Hr. }
  eexists. split; [exact Hst'|].
  unfold ConstantDataArray_get. rewrite Hz. cbn [withName glinkage isConstant
                                                   initializer].
  split_and!; try done.
  apply (stringGlobals_elem _ _ _ Hst'). 
  unfold ConstantDataArray_get. rewrite Hz. reflexivity.
Qed.

Lemma copy_is_selected_next_witness :
  (1 ∈ stringGlobals (module (cycle 170 2 rand_ex (initial M_ABC)).2))%nat.
Proof.
  destruct (copy_is_selected_next 170 2 rand_ex (initial M_ABC) 0 0 str_ABC
              [65; 66; 67; 0] eq_refl eq_refl eq_refl eq_refl)
    as (c & _ & _ & _ & _ & H).
  exact H.
Defined.

(** X13.  On a module in which the encryptor selects nothing, it never
    selects anything: after any number of cycles there is still no string
    to select, the strings-encrypted counter and the number of globals are
    what they were, and every global has its initializer. *)
Theorem no_strings_nothing_encrypted (XorKey BogusCount : Z)
    (rand : nat -> Z) (st : State) (n : nat) :
  stringGlobals (module st) = [] ->
  let st' := after_cycles XorKey BogusCount rand n st in
  obfuscateStrings XorKey st = (false, st) ∧
  stringGlobals (module st') = [] ∧
  length (globals (module st')) = length (globals (module st)) ∧
  strings_obf_count st' = strings_obf_count st ∧
  ∀ i g, globals (module st) !! i = Some g ->
         ∃ g', globals (module st') !! i = Some g' ∧
               initializer g' = initializer g.
Proof.
  intros Hn st'.
  destruct (after_cycles_no_strings XorKey BogusCount rand n st Hn)
    as (H1 & H2 & H3).
  split_and!; try done.
  - rewrite obfuscateStrings_eq, Hn. simpl. by destruct st.
  - intros i g Hg.
    destruct (after_cycles_global_any XorKey BogusCount rand n st i g Hg)
      as (g' & Hg' & _ & Hi & _).
    exists g'. split; [exact Hg'|]. apply Hi.
    unfold stringGlobals in Hn.
    apply (proj1 (collect_nil_iff _ _ _) Hn).
    by eapply list_elem_of_lookup_2.
Qed.

Lemma no_strings_nothing_encrypted_witness :
  strings_obf_count (after_cycles 170 2 rand_ex 3 (initial M_idle)) = 0.
Proof.
  destruct (no_strings_nothing_encrypted 170 2 rand_ex (initial M_idle) 3
              eq_refl) as (_ & _ & _ & H & _).
  exact H.
Defined.

(** X14.  The stored byte does not depend on whether [char] is signed:
    reading the character as a signed [char], XORing it as an [int] with
    [XorKey & 0xFF] and storing the result in a [uint8_t] gives the same
    byte as for an unsigned character. *)
Theorem stored_byte_ignores_char_sign (XorKey c : Z) :
  is_byte c ->
  Z.lxor (sext8 c) (Z.land XorKey 255) mod 2 ^ 8 = xor_byte XorKey c ∧
  is_byte (xor_byte XorKey c).
Proof.
  intros Hc. split; [by apply xor_byte_signed_char|apply xor_byte_is_byte].
Qed.

Lemma stored_byte_ignores_char_sign_witness :
  Z.lxor (sext8 200) (Z.land 170 255) mod 2 ^ 8 = xor_byte 170 200.
Proof.
  assert (is_byte 200) as Hb by (unfold is_byte; lia).
  exact (proj1 (stored_byte_ignores_char_sign 170 200 Hb)).
Defined.

(** ** Whole runs *)

(** X15.  For [cycles = C >= 0] the completed-cycle counter advances by [C]
    modulo [2^32]; and a run of at least one cycle reports a change as soon
    as [bogusCount >= 1] or the module has a string to encrypt. *)
Theorem run_counts_cycles (XorKey BogusCount Cycles : Z) (rand : nat -> Z)
    (st : State) :
  0 <= Cycles ->
  in_range (cycles_completed st) ->
  cycles_completed (runOnModule XorKey BogusCount Cycles rand st).2 =
    (cycles_completed st + Cycles) mod 2 ^ 32 ∧
  (1 <= Cycles ->
   1 <= BogusCount ∨ stringGlobals (module st) ≠ [] ->
   (runOnModule XorKey BogusCount Cycles rand st).1 = true).
Proof.
  intros HC Hr. split.
  - change (runOnModule XorKey BogusCount Cycles rand st).2
      with (after_cycles XorKey BogusCount rand (Z.to_nat Cycles) st).
    rewrite after_cycles_completed by exact Hr. unfold bump.
    by rewrite Z2Nat.id.
  - intros H1 Hor. unfold runOnModule.
    destruct (Z.to_nat Cycles) as [|n] eqn:E; [lia|].
    apply run_cycles_S_fst. rewrite cycle_fst.
    destruct Hor as [HB|Hs].
    + unfold insertBogusFunctions at 1. cbn [fst].
      replace (0 <? BogusCount) with true by (symmetry; apply Z.ltb_lt; lia).
      by rewrite orb_true_r.
    + rewrite obfuscateStrings_eq. cbn [fst].
      by rewrite bool_decide_eq_false_2.
Qed.

Lemma run_counts_cycles_witness :
  cycles_completed (runOnModule 170 0 3 rand_ex (initial M_ABC)).2 = 3 ∧
  (runOnModule 170 0 3 rand_ex (initial M_ABC)).1 = true.
Proof.
  assert (in_range (cycles_completed (initial M_ABC))) as Hr by in_bounds.
  destruct (run_counts_cycles 170 0 3 rand_ex (initial M_ABC)) as [H1 H2];
    [lia|exact Hr|].
  split; [exact H1|].
  apply H2; [lia|]. right. discriminate.
Defined.

(** X16.  A run in which no pass has anything to select ([bogusCount <= 0],
    no string global, no private global to rename, no function for the dead
    branch) reports no change and returns the module as it was; only the
    completed-cycle counter moves. *)
Theorem idle_run (XorKey BogusCount Cycles : Z) (rand : nat -> Z)
    (st : State) :
  BogusCount <= 0 ->
  stringGlobals (module st) = [] ->
  toRename (module st) = [] ->
  first_eligible (functions (module st)) = None ->
  let r := runOnModule XorKey BogusCount Cycles rand st in
  r.1 = false ∧ module r.2 = module st ∧
  strings_obf_count r.2 = strings_obf_count st ∧
  fake_funcs_inserted r.2 = fake_funcs_inserted st ∧
  rand_calls r.2 = rand_calls st.
Proof.
  intros HB Hs Hr Hd r. unfold r, runOnModule.
  by rewrite (run_cycles_idle XorKey BogusCount rand _ st HB Hs Hr Hd).
Qed.

Lemma idle_run_witness :
  (runOnModule 170 0 3 rand_ex (initial M_idle)).1 = false ∧
  module (runOnModule 170 0 3 rand_ex (initial M_idle)).2 = M_idle.
Proof.
  destruct (idle_run 170 0 3 rand_ex (initial M_idle)) as (H1 & H2 & _);
    [lia|reflexivity|reflexivity|reflexivity|].
  split; [exact H1|exact H2].
Defined.

(** ** The demonstration program *)

(** X17.  [calculate_fibonacci] of [src/example.c]: for [n <= 1], negative
    numbers included, it returns [n]; for [0 <= n <= 46] it returns the
    [n]-th Fibonacci number, no addition leaving the range of [int], within
    a recursion depth of [n + 1]; for [n = 47] the last addition
    overflows. *)
Theorem calculate_fibonacci_value (n : Z) (fuel : nat) :
  (n <= 1 -> calculate_fibonacci (S fuel) n = Int n) ∧
  (0 <= n <= 46 -> (Z.to_nat n < fuel)%nat ->
   calculate_fibonacci fuel n = Int (fib (Z.to_nat n))) ∧
  (n = 47 -> (47 < fuel)%nat -> calculate_fibonacci fuel n = SignedOverflow).
Proof.
  split_and!.
  - intros Hn. cbn [calculate_fibonacci].
    by replace (n <=? 1) with true by (symmetry; apply Z.leb_le; lia).
  - intros Hn Hf. rewrite <- (Z2Nat.id n) at 1 by lia.
    apply calculate_fibonacci_fib; lia.
  - intros -> Hf. destruct fuel as [|fuel]; [lia|]. cbn [calculate_fibonacci].
    change (47 <=? 1) with false. cbn iota.
    change (47 - 1) with (Z.of_nat 46). change (47 - 2) with (Z.of_nat 45).
    rewrite !calculate_fibonacci_fib by lia.
    vm_compute. reflexivity.
Qed.

Lemma calculate_fibonacci_value_witness :
  calculate_fibonacci 1 (-5) = Int (-5) ∧
  calculate_fibonacci 10 9 = Int 34 ∧
  calculate_fibonacci 48 47 = SignedOverflow.
Proof.
  destruct (calculate_fibonacci_value (-5) 0) as (H1 & _ & _).
  destruct (calculate_fibonacci_value 9 10) as (_ & H2 & _).
  destruct (calculate_fibonacci_value 47 48) as (_ & _ & H3).
  split_and!; [apply H1; lia|apply H2; [lia|simpl; lia]|apply H3; [lia|lia]].
Defined.

(** ** Telemetry *)

(** X18.  The telemetry can be read back.  Two runs that write the same
    [warp_pass_telemetry.json] have the same three counters, the same key
    and the same requested count; two runs that send the same text to the
    diagnostics stream, whether or not the file could be opened, have the
    same three counters. *)
Theorem telemetry_determines_numbers (XorKey XorKey' BogusCount BogusCount' : Z)
    (st st' : State) :
  (telemetry_file XorKey BogusCount st = telemetry_file XorKey' BogusCount' st' ->
   strings_obf_count st = strings_obf_count st' ∧
   fake_funcs_inserted st = fake_funcs_inserted st' ∧
   cycles_completed st = cycles_completed st' ∧
   XorKey = XorKey' ∧ BogusCount = BogusCount') ∧
  (∀ opened,
     (outputTelemetry XorKey BogusCount opened st).2 =
     (outputTelemetry XorKey' BogusCount' opened st').2 ->
     strings_obf_count st = strings_obf_count st' ∧
     fake_funcs_inserted st = fake_funcs_inserted st' ∧
     cycles_completed st = cycles_completed st').
Proof.
  split.
  - unfold telemetry_file, field, newline, quote. intros H.
    repeat (repeat rewrite string_app_assoc in H;
            repeat apply (inj (String.app _)) in H;
            apply pretty_then in H as [? H]; [|reflexivity|reflexivity]).
    by split_and!.
  - intros opened H.
    assert (telemetry_line st = telemetry_line st') as Hl.
    { destruct opened; cbn [outputTelemetry snd] in H;
        by do 2 apply (inj (String.app _)) in H. }
    unfold telemetry_line, newline, quote in Hl.
    repeat (repeat rewrite string_app_assoc in Hl;
            repeat apply (inj (String.app _)) in Hl;
            apply pretty_then in Hl as [? Hl]; [|reflexivity|reflexivity]).
    by split_and!.
Qed.

Lemma telemetry_determines_numbers_witness :
  telemetry_file 170 2 (initial M_ABC) = telemetry_file 170 2 (initial M_demo) ∧
  cycles_completed (initial M_ABC) = cycles_completed (initial M_demo).
Proof.
  assert (telemetry_file 170 2 (initial M_ABC)
          = telemetry_file 170 2 (initial M_demo)) as H by reflexivity.
  split; [exact H|].
  destruct (proj1 (telemetry_determines_numbers 170 170 2 2 (initial M_ABC)
                     (initial M_demo)) H) as (_ & _ & H3 & _).
  exact H3.
Defined.
